(** * ParallelPrimeSieve: work partitioning and aggregation

    A shallow embedding of [src/primesieve/ParallelPrimeSieve.cpp]
    (primesieve, multi-threaded sieve driver) and the properties of its
    range planner, boundary aligner, worker loop and status reporter.

    Unsigned 64-bit values are integers of [Z] in [0, 2^64); every
    operation of the source that can wrap has its reduction written out. *)

From Stdlib Require Import ZArith QArith Lia.
From stdpp Require Import base list.

Local Open Scope Z_scope.

(** ** Machine integers *)

Definition UINT64_MAX : Z := 2 ^ 64 - 1.
Definition INT_MAX : Z := 2 ^ 31 - 1.

(** Result of an [uint64_t] operation. *)
Definition u64 (z : Z) : Z := z mod 2 ^ 64.

(** Result of an [unsigned] (32-bit) operation, as in [threads * 5u]. *)
Definition u32 (z : Z) : Z := z mod 2 ^ 32.

(** The cast [(int) x] of an unsigned value. *)
Definition to_int (z : Z) : Z := (z + 2 ^ 31) mod 2 ^ 32 - 2 ^ 31.

Definition is_u64 (z : Z) : Prop := 0 <= z <= UINT64_MAX.

(** ** Helpers of [pmath.hpp] and [PrimeSieve] *)

(** Modelled from the spec: [checkedAdd] of [pmath.hpp] is not part of the
    sources at hand; the spec calls it the overflow-safe addition that
    saturates rather than wraps. *)
Definition checkedAdd (a b : Z) : Z :=
  if a >=? UINT64_MAX - b then UINT64_MAX else a + b.

(** Modelled from the spec: [inBetween(min, x, max)] of [pmath.hpp] is not
    part of the sources at hand; the spec reads it as a clamp of [x] into
    [[min, max]]. *)
Definition inBetween (lo x hi : Z) : Z :=
  if x <? lo then lo else if x >? hi then hi else x.

(** Modelled from the spec: [isqrt] of [pmath.hpp] is not part of the
    sources at hand; the spec uses it as the integer square root. *)
Definition isqrt (x : Z) : Z := Z.sqrt x.

(** ** Data model *)

(** The six accumulators [counts_]: primes, then 2- to 6-tuplets. *)
Definition Counters : Type := list Z.

Definition zero_counts : Counters := replicate 6 0.

(** [SharedMemory]: the status sink of the GUI. *)
Record SharedMemory : Type := mkShm {
  shm_counts : Counters;
  shm_status : Q;
  shm_seconds : Q
}.

(** [lock_] as one caller of [updateStatus] finds it. *)
Inductive mutex : Type :=
  | Unlocked
  | LockedByOther.

(** The object: the members of [PrimeSieve] and [ParallelPrimeSieve] that
    the functions below read or write. *)
Record ParallelPrimeSieve : Type := mkPPS {
  start_ : Z;
  stop_ : Z;
  numThreads_ : Z;
  counts_ : Counters;
  seconds_ : Q;
  processed_ : Z;
  percent_ : Q;
  lock_ : mutex;
  shm_ : option SharedMemory
}.

Definition in_range (ps : ParallelPrimeSieve) : Prop :=
  is_u64 (start_ ps) /\ is_u64 (stop_ ps).

(** Modelled from the spec: [PrimeSieve::getDistance] is not part of the
    sources at hand; the spec calls it the distance of the interval,
    [stop - start] in 64-bit arithmetic. *)
Definition getDistance (ps : ParallelPrimeSieve) : Z :=
  u64 (stop_ ps - start_ ps).

(** ** RangePlanner and Aligner *)

Section Planner.

(** [config::MIN_THREAD_DISTANCE] and [config::MAX_THREAD_DISTANCE] are
    declared in [config.hpp], which is not part of the sources at hand. *)
Variable MIN_THREAD_DISTANCE : Z.
Variable MAX_THREAD_DISTANCE : Z.

(** The local [threshold] of [idealNumThreads]. *)
Definition threshold_of (ps : ParallelPrimeSieve) : Z :=
  Z.max MIN_THREAD_DISTANCE (isqrt (stop_ ps) / 5).

Definition idealNumThreads (ps : ParallelPrimeSieve) : Z :=
  if start_ ps >? stop_ ps then 1
  else
    let threshold := threshold_of ps in
    let threads := getDistance ps / threshold in
    let threads := inBetween 1 threads (numThreads_ ps) in
    to_int threads.

(** [getThreadDistance]; the source asserts [threads > 0]. The operand
    [threads * 5u] is a 32-bit unsigned product. *)
Definition getThreadDistance (ps : ParallelPrimeSieve) (threads : Z) : Z :=
  let unbalanced := getDistance ps / threads in
  let balanced := u64 (isqrt (stop_ ps) * 1000) in
  let fastest := Z.min balanced unbalanced in
  let threadDistance :=
    inBetween MIN_THREAD_DISTANCE fastest MAX_THREAD_DISTANCE in
  let chunks := getDistance ps / threadDistance in
  let threadDistance :=
    if chunks <? u32 (threads * 5)
    then Z.max MIN_THREAD_DISTANCE unbalanced
    else threadDistance in
  u64 (threadDistance + (30 - threadDistance mod 30)).

End Planner.

(** [align]: aligns [n] to 2 modulo 30, or returns [stop_]. *)
Definition align (ps : ParallelPrimeSieve) (n : Z) : Z :=
  let n32 := checkedAdd n 32 in
  if n32 >=? stop_ ps then stop_ ps
  else u64 (n32 - n mod 30).

(** The Aligner as the spec words it: the subtracted remainder is the one of
    [n + 32]. *)
Definition align_spec (n stop : Z) : Z :=
  let n32 := n + 32 in
  if n32 >=? stop then stop else n32 - n32 mod 30.

(** [clamp(x, lo, hi)] as the spec writes the thread-count rule. *)
Definition clamp (x lo hi : Z) : Z := Z.max lo (Z.min x hi).

(** [ceil(a / b)] as the spec writes the number of chunks. *)
Definition ceil_div (a b : Z) : Z := (a + b - 1) / b.

(** ** WorkDispatcher and WorkerTask *)

(** [counts += ps.counts_]: element-wise sum of two counter vectors. *)
Definition vadd (a b : Counters) : Counters :=
  zip_with (fun x y => u64 (x + y)) a b.

(** Sum of a sequence of counter vectors, starting from six zeros. *)
Definition vsum (l : list Counters) : Counters := foldr vadd zero_counts l.

(** A counter vector as the program keeps it: six 64-bit values. *)
Definition wf_counts (c : Counters) : Prop :=
  length c = 6%nat /\ Forall is_u64 c.

(** [iters] of [sieve()]. *)
Definition iters_of (ps : ParallelPrimeSieve) (threadDistance : Z) : Z :=
  u64 (u64 (getDistance ps - 1) / threadDistance + 1).

(** The bounds [(start, stop)] a worker hands to [ps.sieve] after it has
    read the chunk index [i] under the lock. *)
Definition chunk (ps : ParallelPrimeSieve) (threadDistance i : Z) : Z * Z :=
  let start := u64 (start_ ps + u64 (i * threadDistance)) in
  let stop := checkedAdd start threadDistance in
  let stop := align ps stop in
  let start := if start >? start_ ps then u64 (align ps start + 1) else start in
  (start, stop).

(** All chunks of a run, by index. *)
Definition chunks (ps : ParallelPrimeSieve) (threadDistance iters : Z)
  : list (Z * Z) :=
  map (chunk ps threadDistance) (seqZ 0 iters).

Definition covered_by (x : Z) (c : Z * Z) : bool :=
  (fst c <=? x) && (x <=? snd c).

(** Number of chunks that contain [x]. *)
Definition cover_count (x : Z) (l : list (Z * Z)) : nat :=
  length (List.filter (covered_by x) l).

(** [l] tiles [[a, b]]: the first chunk starts at [a], each next chunk starts
    right after the end of the one before, and the last chunk ends at [b].
    A chunk may be empty, with its end just below its start. *)
Fixpoint tiles (a b : Z) (l : list (Z * Z)) : Prop :=
  match l with
  | [] => a = b + 1
  | c :: l' => fst c = a /\ a - 1 <= snd c <= b /\ tiles (snd c + 1) b l'
  end.

(** The shared state of the thread pool: the chunk index [i], per thread its
    local [counts] ([None] once the thread has merged and returned), and the
    coordinator's [counts_]. *)
Record Pool : Type := mkPool {
  next_i : Z;
  workers : list (option Counters);
  merged : Counters
}.

(** Sum of the local counts of the threads that have not merged yet. *)
Definition live_sum (ws : list (option Counters)) : Counters :=
  foldr (fun o acc => match o with Some c => vadd c acc | None => acc end)
        zero_counts ws.

(** Thread [t] is still in its loop. *)
Definition running (p : Pool) (t : nat) : Prop :=
  exists c, workers p !! t = Some (Some c).

Definition set_progress (ps : ParallelPrimeSieve) (processed : Z) (percent : Q)
  : ParallelPrimeSieve :=
  mkPPS (start_ ps) (stop_ ps) (numThreads_ ps) (counts_ ps) (seconds_ ps)
        processed percent (lock_ ps) (shm_ ps).

Definition set_result (ps : ParallelPrimeSieve) (counts : Counters) (seconds : Q)
  : ParallelPrimeSieve :=
  mkPPS (start_ ps) (stop_ ps) (numThreads_ ps) counts seconds
        (processed_ ps) (percent_ ps) (lock_ ps) (shm_ ps).

Definition set_shm (ps : ParallelPrimeSieve) (shm : option SharedMemory)
  : ParallelPrimeSieve :=
  mkPPS (start_ ps) (stop_ ps) (numThreads_ ps) (counts_ ps) (seconds_ ps)
        (processed_ ps) (percent_ ps) (lock_ ps) shm.

(** Modelled from the spec: [PrimeSieve::reset] is not part of the sources
    at hand; the spec has the Counters zero-initialized at run start. *)
Definition reset (ps : ParallelPrimeSieve) : ParallelPrimeSieve :=
  set_result ps zero_counts (seconds_ ps).

(** What [sieve()] leaves behind: the object and the size of the pool. *)
Record Outcome : Type := mkOutcome {
  object : ParallelPrimeSieve;
  spawned : Z
}.

(** A call that may have to wait for a lock held elsewhere. *)
Inductive Call : Type :=
  | Returns (result : bool) (after : ParallelPrimeSieve)
  | Blocks.

(** Modelled from the spec: [LockGuard] of [LockGuard.hpp] is not part of
    the sources at hand; the spec has it acquire the status lock, blocking
    if [wait] is true and non-blocking otherwise. [Some b] is the value of
    [isSet()] once the constructor has returned, [None] a constructor that
    waits for the owner. *)
Definition LockGuard (m : mutex) (wait : bool) : option bool :=
  match m with
  | Unlocked => Some true
  | LockedByOther => if wait then None else Some false
  end.

(** Modelled from the spec: [PrimeSieve::getStatus] is not part of the
    sources at hand; the spec has the recomputed percentage go to the
    sink. *)
Definition getStatus (ps : ParallelPrimeSieve) : Q := percent_ ps.

Section Sieve.

(** The sequential engine: [engine a b] is [ps.counts_] after
    [ps.sieve(a, b)] of a [PrimeSieve]. Its code is out of scope. *)
Variable engine : Z -> Z -> Counters.

Variable ps : ParallelPrimeSieve.
Variable threadDistance : Z.
Variable iters : Z.

(** The counts of sieving every chunk of [l] once. *)
Definition sieve_chunks (l : list (Z * Z)) : Counters :=
  vsum (map (fun c => engine (fst c) (snd c)) l).

(** One pass of thread [t] through the body of [while (true)]: under the
    lock it either finds [i >= iters], leaves the loop and merges its local
    counts into [counts_], or takes chunk [i]; the chunk is then sieved and
    added to the local counts. A thread that has returned does nothing.
    A pass is one step: the sieving of a chunk touches only what is local to
    the thread, so the pool is described between passes; the states inside a
    pass, where a chunk is taken and its counts are not yet added, are no
    states of [Pool]. *)
Definition worker_step (p : Pool) (t : nat) : Pool :=
  match workers p !! t with
  | Some (Some counts) =>
      if next_i p >=? iters
      then mkPool (next_i p) (<[t := None]> (workers p)) (vadd (merged p) counts)
      else
        let c := chunk ps threadDistance (next_i p) in
        mkPool (u64 (next_i p + 1))
               (<[t := Some (vadd counts (engine (fst c) (snd c)))]> (workers p))
               (merged p)
  | _ => p
  end.

(** The pool after the threads named in [sched] have each, in that order,
    made one pass. *)
Definition run_schedule (sched : list nat) (p : Pool) : Pool :=
  foldl worker_step p sched.

(** [t.join()] for every thread: each thread still running makes its
    remaining passes. *)
Definition run_to_exit (p : Pool) (t : nat) : Pool :=
  Nat.iter (S (Z.to_nat (iters - next_i p))) (fun q => worker_step q t) p.

Definition join_all (p : Pool) : Pool :=
  foldl run_to_exit p (seq 0 (length (workers p))).

Definition pool_start (threads : Z) : Pool :=
  mkPool 0 (replicate (Z.to_nat threads) (Some zero_counts)) (counts_ ps).

Definition run_pool (threads : Z) (sched : list nat) : Pool :=
  join_all (run_schedule sched (pool_start threads)).

(** What holds of the pool between any two passes, for [n] threads started
    on the counts [counts_ ps]: the index is within [[0, iters]]; every vector
    has six entries; the merged and the local counts together are the counts
    of the chunks handed out so far; and a thread has only left its loop if
    no chunk is left. *)
Record pool_inv (n : nat) (p : Pool) : Prop := mkPoolInv {
  inv_index : 0 <= next_i p <= iters;
  inv_threads : length (workers p) = n;
  inv_merged : wf_counts (merged p);
  inv_locals : forall t c, workers p !! t = Some (Some c) -> length c = 6%nat;
  inv_sum :
    vadd (merged p) (live_sum (workers p))
    = vadd (counts_ ps) (sieve_chunks (chunks ps threadDistance (next_i p)));
  inv_left : forall t, workers p !! t = Some None -> next_i p = iters
}.

End Sieve.

Section Run.

Variable MIN_THREAD_DISTANCE : Z.
Variable MAX_THREAD_DISTANCE : Z.
Variable engine : Z -> Z -> Counters.

(** The percentage [PrimeSieve::updateStatus] derives from the running
    total and the distance; a [double] in the source. *)
Variable percentOf : Z -> Z -> Q.

(** Modelled from the spec: [PrimeSieve::sieve()] is not part of the sources
    at hand; the spec has the single-thread fallback run the sequential
    engine directly over [[start, stop]]. *)
Definition PrimeSieve_sieve (ps : ParallelPrimeSieve) (elapsed : Q)
  : ParallelPrimeSieve :=
  set_result ps (engine (start_ ps) (stop_ ps)) elapsed.

(** The tail of [sieve()]: results are handed to the GUI. *)
Definition publish (ps : ParallelPrimeSieve) : ParallelPrimeSieve :=
  match shm_ ps with
  | Some shm => set_shm ps (Some (mkShm (counts_ ps) (shm_status shm) (seconds_ ps)))
  | None => ps
  end.

(** [sieve()]. [sched] is the order in which the threads of the pool come
    to the lock, [elapsed] the wall-clock time the run is measured to take.
    The engine is taken as a function from bounds to counts: the progress it
    reports through [updateStatus] while a run lasts is not followed here, so
    [processed_], [percent_] and the status field of the sink are carried
    along as they were and say nothing about their values after a run. *)
Definition sieve (ps : ParallelPrimeSieve) (sched : list nat) (elapsed : Q)
  : Outcome :=
  let ps := reset ps in
  if start_ ps >? stop_ ps then mkOutcome ps 0
  else
    let threads := idealNumThreads MIN_THREAD_DISTANCE ps in
    if threads =? 1
    then mkOutcome (publish (PrimeSieve_sieve ps elapsed)) 0
    else
      let threadDistance :=
        getThreadDistance MIN_THREAD_DISTANCE MAX_THREAD_DISTANCE ps threads in
      let iters := iters_of ps threadDistance in
      let threads := inBetween 1 threads iters in
      let pool := run_pool engine ps threadDistance iters threads sched in
      mkOutcome (publish (set_result ps (merged pool) elapsed)) threads.

(** Modelled from the spec: [PrimeSieve::updateStatus(processed)] is not
    part of the sources at hand; the spec has it add [processed] to a
    running total and recompute the percentage against the interval
    length. *)
Definition PrimeSieve_updateStatus (ps : ParallelPrimeSieve) (processed : Z)
  : ParallelPrimeSieve :=
  let total := u64 (processed_ ps + processed) in
  set_progress ps total (percentOf total (getDistance ps)).

Definition updateStatus (ps : ParallelPrimeSieve) (processed : Z) (wait : bool)
  : Call :=
  match LockGuard (lock_ ps) wait with
  | None => Blocks
  | Some isSet =>
      let ps :=
        if isSet
        then
          let ps := PrimeSieve_updateStatus ps processed in
          match shm_ ps with
          | Some shm =>
              set_shm ps (Some (mkShm (shm_counts shm) (getStatus ps) (shm_seconds shm)))
          | None => ps
          end
        else ps in
      Returns isSet ps
  end.

(** The status update as the spec words it: counts, percentage and elapsed
    time all go to the sink. *)
Definition updateStatus_spec (ps : ParallelPrimeSieve) (processed : Z) (wait : bool)
  : Call :=
  match LockGuard (lock_ ps) wait with
  | None => Blocks
  | Some isSet =>
      let ps :=
        if isSet
        then
          let ps := PrimeSieve_updateStatus ps processed in
          match shm_ ps with
          | Some shm =>
              set_shm ps (Some (mkShm (counts_ ps) (getStatus ps) (seconds_ ps)))
          | None => ps
          end
        else ps in
      Returns isSet ps
  end.

End Run.

(** ** A concrete engine

    The engine with only the prime-count flag set: it counts the primes of
    [[a, b]] and leaves the five tuplet counters at zero. It serves to run
    the scheduler on concrete ranges. *)

Definition is_prime (n : Z) : bool :=
  (1 <? n) && forallb (fun d => negb (n mod d =? 0)) (seqZ 2 (n - 2)).

Definition count_primes (a b : Z) : Z :=
  Z.of_nat (length (List.filter is_prime (seqZ a (b - a + 1)))).

Definition prime_engine (a b : Z) : Counters :=
  [u64 (count_primes a b); 0; 0; 0; 0; 0].

(** An integer percentage for concrete runs of the status reporter. *)
Definition percent_int (processed distance : Z) : Q :=
  inject_Z (Z.min 100 (processed * 100 / distance)).

(** A fresh object for the range [[start, stop]] and [threads] threads. *)
Definition new_sieve (start stop threads : Z) : ParallelPrimeSieve :=
  mkPPS start stop threads zero_counts 0%Q 0 0%Q Unlocked None.

(** A range that ends at the largest 64-bit value, to be sieved by four
    threads. *)
Definition range_to_max : ParallelPrimeSieve :=
  new_sieve 18446743673709551414 UINT64_MAX 4.

(** An object between two runs: the counts of the last run are still in
    [counts_], the attached sink has not been written yet. *)
Definition status_demo : ParallelPrimeSieve :=
  mkPPS 0 1000 4 [168; 35; 15; 5; 1; 0] 2%Q 0 0%Q Unlocked
        (Some (mkShm zero_counts 0%Q 0%Q)).

(** The same object while another thread holds the status lock. *)
Definition status_demo_busy : ParallelPrimeSieve :=
  mkPPS 0 1000 4 [168; 35; 15; 5; 1; 0] 2%Q 0 0%Q LockedByOther
        (Some (mkShm zero_counts 0%Q 0%Q)).

(** ** Construction and configuration *)

(** [getMaxThreads]: [max<int>(1, thread::hardware_concurrency())]. The
    argument is what [hardware_concurrency] reports, an unsigned value that
    is 0 when the number of threads cannot be told; it is converted to
    [int]. *)
Definition getMaxThreads (hardware_concurrency : Z) : Z :=
  Z.max 1 (to_int hardware_concurrency).

Definition getNumThreads (ps : ParallelPrimeSieve) : Z := numThreads_ ps.

Definition set_numThreads (ps : ParallelPrimeSieve) (threads : Z)
  : ParallelPrimeSieve :=
  mkPPS (start_ ps) (stop_ ps) threads (counts_ ps) (seconds_ ps)
        (processed_ ps) (percent_ ps) (lock_ ps) (shm_ ps).

Definition setNumThreads (hardware_concurrency : Z) (ps : ParallelPrimeSieve)
  (threads : Z) : ParallelPrimeSieve :=
  set_numThreads ps (inBetween 1 threads (getMaxThreads hardware_concurrency)).

(** The constructor: [base] holds the inherited members as the constructor
    of [PrimeSieve] leaves them; no sink is bound and every hardware thread
    is used. *)
Definition ParallelPrimeSieve_new (hardware_concurrency : Z)
  (base : ParallelPrimeSieve) : ParallelPrimeSieve :=
  set_numThreads (set_shm base None) (getMaxThreads hardware_concurrency).

(** Modelled from the spec: [PrimeSieve::setStart] and [PrimeSieve::setStop]
    are not part of the sources at hand; the spec has them set the bounds of
    the range. *)
Definition setStart (ps : ParallelPrimeSieve) (start : Z) : ParallelPrimeSieve :=
  mkPPS start (stop_ ps) (numThreads_ ps) (counts_ ps) (seconds_ ps)
        (processed_ ps) (percent_ ps) (lock_ ps) (shm_ ps).

Definition setStop (ps : ParallelPrimeSieve) (stop : Z) : ParallelPrimeSieve :=
  mkPPS (start_ ps) stop (numThreads_ ps) (counts_ ps) (seconds_ ps)
        (processed_ ps) (percent_ ps) (lock_ ps) (shm_ ps).

(** The members of the GUI's [SharedMemory] that [init] reads; the members
    that [sieve] and [updateStatus] write are those of [SharedMemory]
    above. *)
Record SieveRequest : Type := mkRequest {
  req_start : Z;
  req_stop : Z;
  req_sieveSize : Z;
  req_flags : Z;
  req_threads : Z
}.

(** [init(shm)]: takes range and thread count from the shared memory and
    binds it as the sink. [setSieveSize] and [setFlags] write members of
    the engine that are not kept here. *)
Definition init (hardware_concurrency : Z) (ps : ParallelPrimeSieve)
  (req : SieveRequest) (shm : SharedMemory) : ParallelPrimeSieve :=
  let ps := setStart ps (req_start req) in
  let ps := setStop ps (req_stop req) in
  let ps := setNumThreads hardware_concurrency ps (req_threads req) in
  set_shm ps (Some shm).

(** ** Basic facts *)

Lemma u64_small z : 0 <= z <= UINT64_MAX -> u64 z = z.
Proof. unfold u64, UINT64_MAX. intros H. apply Z.mod_small. lia. Qed.

Lemma u64_range z : is_u64 (u64 z).
Proof.
  unfold is_u64, u64, UINT64_MAX.
  pose proof (Z.mod_pos_bound z (2 ^ 64) ltac:(lia)). lia.
Qed.

Lemma to_int_small z : 0 <= z <= INT_MAX -> to_int z = z.
Proof.
  unfold to_int, INT_MAX. intros H.
  rewrite Z.mod_small; lia.
Qed.

Lemma checkedAdd_min a b :
  is_u64 a -> 0 <= b -> checkedAdd a b = Z.min (a + b) UINT64_MAX.
Proof. unfold checkedAdd, is_u64. intros Ha Hb. destruct (Z.geb_spec a (UINT64_MAX - b)); lia. Qed.

Lemma checkedAdd_range a b : is_u64 a -> 0 <= b -> is_u64 (checkedAdd a b).
Proof. intros Ha Hb. rewrite checkedAdd_min by assumption. unfold is_u64 in *. lia. Qed.

Lemma inBetween_clamp lo x hi : lo <= hi -> inBetween lo x hi = clamp x lo hi.
Proof.
  unfold inBetween, clamp. intros H.
  destruct (Z.ltb_spec x lo); [lia|].
  destruct (Z.gtb_spec x hi); lia.
Qed.

Lemma inBetween_bounds lo x hi : lo <= hi -> lo <= inBetween lo x hi <= hi.
Proof. intros H. rewrite inBetween_clamp by assumption. unfold clamp. lia. Qed.

Lemma isqrt_u64 x : is_u64 x -> 0 <= isqrt x < 2 ^ 32.
Proof.
  unfold is_u64, UINT64_MAX, isqrt. intros H. split; [apply Z.sqrt_nonneg|].
  apply Z.sqrt_lt_square; lia.
Qed.

Lemma getDistance_sub ps :
  in_range ps -> start_ ps <= stop_ ps -> getDistance ps = stop_ ps - start_ ps.
Proof.
  unfold in_range, is_u64, getDistance. intros [H1 H2] H. apply u64_small. lia.
Qed.

(** [align] without the machine arithmetic. *)
Lemma align_math ps n :
  is_u64 n -> is_u64 (stop_ ps) ->
  align ps n = if n + 32 >=? stop_ ps then stop_ ps else n + 32 - n mod 30.
Proof.
  unfold align. intros Hn Hs. rewrite checkedAdd_min by (assumption || lia).
  unfold is_u64 in *.
  pose proof (Z.mod_pos_bound n 30 ltac:(lia)).
  destruct (Z.geb_spec (Z.min (n + 32) UINT64_MAX) (stop_ ps));
    destruct (Z.geb_spec (n + 32) (stop_ ps)); try lia.
  rewrite Z.min_l by lia. apply u64_small. lia.
Qed.

Lemma align_mod30 n : (n + 32 - n mod 30) mod 30 = 2.
Proof.
  rewrite (Z.div_mod n 30) at 1 by lia.
  replace (30 * (n / 30) + n mod 30 + 32 - n mod 30) with (2 + (n / 30 + 1) * 30) by lia.
  rewrite Z.mod_add by lia. reflexivity.
Qed.

(** ** Aligner *)

(** C3 (amended): for n and stop in the 64-bit range, align(n) returns stop
    if n + 32 meets or exceeds stop; otherwise it returns
    (n + 32) - (n mod 30), the remainder being that of n and not of n + 32,
    and this value is congruent to 2 modulo 30. *)
Theorem align_returns ps n :
  is_u64 n -> is_u64 (stop_ ps) ->
  align ps n = (if n + 32 >=? stop_ ps then stop_ ps else n + 32 - n mod 30)
  /\ (n + 32 < stop_ ps -> align ps n mod 30 = 2).
Proof.
  intros Hn Hs. split; [apply align_math; assumption|].
  intros Hlt. rewrite align_math by assumption.
  destruct (Z.geb_spec (n + 32) (stop_ ps)); [lia|]. apply align_mod30.
Qed.

Lemma align_returns_witness :
  align (new_sieve 0 1000 1) 45
  = (if 45 + 32 >=? 1000 then 1000 else 45 + 32 - 45 mod 30)
  /\ (45 + 32 < 1000 -> align (new_sieve 0 1000 1) 45 mod 30 = 2).
Proof.
  apply (align_returns (new_sieve 0 1000 1) 45); unfold is_u64, UINT64_MAX; simpl; lia.
Defined.

(** C3 as stated fails: at n = 0 and stop = 1000 the code returns 32, which
    is 2 modulo 30, while (n + 32) - ((n + 32) mod 30) is 30. *)
Lemma align_spec_formula_fails :
  align (new_sieve 0 1000 1) 0 = 32
  /\ align_spec 0 1000 = 30
  /\ align (new_sieve 0 1000 1) 0 <> align_spec 0 1000.
Proof. repeat split; vm_compute; congruence. Qed.

(** When n + 32 < stop, align(n) lies in [n + 3, n + 32], is congruent to
    2 modulo 30, and align(n) + 1, computed in 64 bits, is strictly greater
    than n. *)
Lemma align_advances ps n :
  is_u64 n -> is_u64 (stop_ ps) -> n + 32 < stop_ ps ->
  n + 3 <= align ps n <= n + 32
  /\ align ps n mod 30 = 2
  /\ n < u64 (align ps n + 1).
Proof.
  intros Hn Hs Hlt. rewrite align_math by assumption.
  destruct (Z.geb_spec (n + 32) (stop_ ps)); [lia|].
  pose proof (Z.mod_pos_bound n 30 ltac:(lia)) as Hm.
  split; [lia|]. split; [apply align_mod30|].
  rewrite u64_small; unfold is_u64 in *; lia.
Qed.

(** ** RangePlanner *)

Section PlannerFacts.

Variable MIN_THREAD_DISTANCE : Z.
Variable MAX_THREAD_DISTANCE : Z.

Lemma threshold_pos ps :
  0 < MIN_THREAD_DISTANCE -> 0 < threshold_of MIN_THREAD_DISTANCE ps.
Proof. unfold threshold_of. lia. Qed.

Lemma idealNumThreads_range ps :
  1 <= numThreads_ ps <= INT_MAX ->
  1 <= idealNumThreads MIN_THREAD_DISTANCE ps <= numThreads_ ps.
Proof.
  intros Hn. unfold idealNumThreads.
  destruct (start_ ps >? stop_ ps); [lia|].
  pose proof (inBetween_bounds 1 (getDistance ps / threshold_of MIN_THREAD_DISTANCE ps)
                (numThreads_ ps) ltac:(lia)) as Hb.
  rewrite to_int_small; lia.
Qed.

(** On a non-empty range the thread count is the clamped quotient. *)
Lemma idealNumThreads_clamp ps :
  in_range ps -> 1 <= numThreads_ ps <= INT_MAX -> start_ ps <= stop_ ps ->
  idealNumThreads MIN_THREAD_DISTANCE ps
  = clamp ((stop_ ps - start_ ps) / threshold_of MIN_THREAD_DISTANCE ps)
          1 (numThreads_ ps).
Proof.
  intros Hr Hn Hle. unfold idealNumThreads.
  destruct (Z.gtb_spec (start_ ps) (stop_ ps)); [lia|].
  rewrite getDistance_sub by assumption.
  pose proof (inBetween_bounds 1
                ((stop_ ps - start_ ps) / threshold_of MIN_THREAD_DISTANCE ps)
                (numThreads_ ps) ltac:(lia)).
  rewrite to_int_small by lia. apply inBetween_clamp. lia.
Qed.

(** C7: idealNumThreads returns 1 if start > stop; otherwise it returns
    clamp(distance / threshold, 1, numThreads) with
    threshold = max(MIN_THREAD_DISTANCE, isqrt(stop) / 5); in particular it
    returns 1 whenever distance < threshold. *)
Theorem idealNumThreads_rule ps :
  in_range ps -> 1 <= numThreads_ ps <= INT_MAX -> 0 < MIN_THREAD_DISTANCE ->
  let distance := stop_ ps - start_ ps in
  let threshold := Z.max MIN_THREAD_DISTANCE (isqrt (stop_ ps) / 5) in
  (start_ ps > stop_ ps -> idealNumThreads MIN_THREAD_DISTANCE ps = 1)
  /\ (start_ ps <= stop_ ps ->
      idealNumThreads MIN_THREAD_DISTANCE ps
      = clamp (distance / threshold) 1 (numThreads_ ps))
  /\ (start_ ps <= stop_ ps -> distance < threshold ->
      idealNumThreads MIN_THREAD_DISTANCE ps = 1).
Proof.
  intros Hr Hn Hmin distance threshold.
  split; [|split].
  - intros Hgt. unfold idealNumThreads.
    destruct (Z.gtb_spec (start_ ps) (stop_ ps)); [reflexivity|lia].
  - intros Hle. apply idealNumThreads_clamp; assumption.
  - intros Hle Hlt. rewrite idealNumThreads_clamp by assumption.
    unfold threshold_of.
    destruct Hr as [[Hs0 _] [_ He1]].
    rewrite Z.div_small by (subst distance threshold; lia).
    unfold clamp. lia.
Qed.

End PlannerFacts.

Lemma idealNumThreads_rule_witness :
  (0 > 2000 -> idealNumThreads 100 (new_sieve 0 2000 4) = 1)
  /\ (0 <= 2000 ->
      idealNumThreads 100 (new_sieve 0 2000 4)
      = clamp ((2000 - 0) / Z.max 100 (isqrt 2000 / 5)) 1 4)
  /\ (0 <= 2000 -> 2000 - 0 < Z.max 100 (isqrt 2000 / 5) ->
      idealNumThreads 100 (new_sieve 0 2000 4) = 1).
Proof.
  apply (idealNumThreads_rule 100 (new_sieve 0 2000 4));
    unfold in_range, is_u64, UINT64_MAX, INT_MAX; simpl; lia.
Defined.

(** Rounding up to the next multiple of 30, the last statement of
    [getThreadDistance]. *)
Lemma round30_spec td :
  0 <= td -> td + 30 <= UINT64_MAX ->
  let r := u64 (td + (30 - td mod 30)) in
  r mod 30 = 0 /\ td < r <= td + 30.
Proof.
  intros H0 H1 r. subst r.
  pose proof (Z.mod_pos_bound td 30 ltac:(lia)) as Hm.
  rewrite u64_small by lia. split; [|lia].
  rewrite (Z.div_mod td 30) at 1 by lia.
  replace (30 * (td / 30) + td mod 30 + (30 - td mod 30)) with ((td / 30 + 1) * 30) by lia.
  apply Z.mod_mul. lia.
Qed.

Lemma div_lt_inv a b q : 0 < b -> a / b < q -> a < b * q.
Proof.
  intros Hb Hq.
  pose proof (Z.div_mod a b ltac:(lia)) as Hd.
  pose proof (Z.mod_pos_bound a b Hb) as Hm. nia.
Qed.

Lemma u32_le z : 0 <= z -> u32 z <= z.
Proof. intros H. unfold u32. apply Z.mod_le; lia. Qed.

Section DistanceFacts.

Variable MIN_THREAD_DISTANCE : Z.
Variable MAX_THREAD_DISTANCE : Z.
Hypothesis MIN_pos : 0 < MIN_THREAD_DISTANCE.
Hypothesis MIN_le_MAX : MIN_THREAD_DISTANCE <= MAX_THREAD_DISTANCE.
Hypothesis MAX_fits : 5 * MAX_THREAD_DISTANCE + 30 <= UINT64_MAX.

Variable ps : ParallelPrimeSieve.
Hypothesis ps_range : in_range ps.
Hypothesis ps_ordered : start_ ps <= stop_ ps.

Variable threads : Z.
Hypothesis threads_pos : 1 <= threads.

Local Abbreviation distance := (stop_ ps - start_ ps).
Local Abbreviation unbalanced := (distance / threads).
Local Abbreviation first_choice :=
  (inBetween MIN_THREAD_DISTANCE (Z.min (u64 (isqrt (stop_ ps) * 1000)) unbalanced)
             MAX_THREAD_DISTANCE).
Local Abbreviation fallback := (distance / first_choice <? u32 (threads * 5)).
Local Abbreviation chosen :=
  (if fallback then Z.max MIN_THREAD_DISTANCE unbalanced else first_choice).

Lemma getThreadDistance_unfold :
  getThreadDistance MIN_THREAD_DISTANCE MAX_THREAD_DISTANCE ps threads
  = u64 (chosen + (30 - chosen mod 30)).
Proof.
  unfold getThreadDistance. rewrite getDistance_sub by assumption. reflexivity.
Qed.

Lemma distance_range : 0 <= distance <= UINT64_MAX.
Proof. destruct ps_range as [[? ?] [? ?]]. lia. Qed.

Lemma unbalanced_bounds : 0 <= unbalanced /\ unbalanced * threads <= distance < (unbalanced + 1) * threads.
Proof.
  pose proof distance_range as Hd.
  pose proof (Z.div_mod distance threads ltac:(lia)) as He.
  pose proof (Z.mod_pos_bound distance threads ltac:(lia)) as Hm.
  split; [apply Z.div_pos; lia|]. nia.
Qed.

Lemma first_choice_bounds : MIN_THREAD_DISTANCE <= first_choice <= MAX_THREAD_DISTANCE.
Proof. apply inBetween_bounds. assumption. Qed.

(** The fallback applies only when the even split is below five times the
    first choice. *)
Lemma fallback_unbalanced : fallback = true -> unbalanced < 5 * first_choice.
Proof.
  intros H. apply Z.ltb_lt in H.
  pose proof first_choice_bounds as Hf.
  pose proof (u32_le (threads * 5) ltac:(lia)) as Hu.
  assert (Hlt : distance < first_choice * (threads * 5)) by (apply div_lt_inv; lia).
  destruct unbalanced_bounds as [H0 [H1 _]]. nia.
Qed.

Lemma chosen_bounds :
  MIN_THREAD_DISTANCE <= chosen <= Z.max MAX_THREAD_DISTANCE unbalanced
  /\ chosen + 30 <= UINT64_MAX.
Proof.
  pose proof first_choice_bounds as Hf.
  destruct fallback eqn:Hfb.
  - pose proof (fallback_unbalanced Hfb). lia.
  - lia.
Qed.

(** The result is the next multiple of 30 above the chosen distance. *)
Lemma getThreadDistance_rounds :
  let td := getThreadDistance MIN_THREAD_DISTANCE MAX_THREAD_DISTANCE ps threads in
  td mod 30 = 0 /\ chosen < td <= chosen + 30.
Proof.
  intros td. subst td. rewrite getThreadDistance_unfold.
  destruct chosen_bounds as [Hc Hfit].
  apply (round30_spec chosen ltac:(lia) Hfit).
Qed.

(** C4 (amended): for start <= stop and threads >= 1, with thresholds
    0 < MIN <= MAX small enough for 64 bits, getThreadDistance(threads) is a
    positive multiple of 30, is greater than MIN_THREAD_DISTANCE, and is at
    most max(MAX_THREAD_DISTANCE, distance / threads) + 30: the rounding up
    to a multiple of 30 comes after the clamp, and the fallback to the even
    split is bounded from below only. *)
Theorem getThreadDistance_bounds :
  let td := getThreadDistance MIN_THREAD_DISTANCE MAX_THREAD_DISTANCE ps threads in
  0 < td
  /\ td mod 30 = 0
  /\ MIN_THREAD_DISTANCE < td
  /\ td <= Z.max MAX_THREAD_DISTANCE ((stop_ ps - start_ ps) / threads) + 30.
Proof.
  intros td. destruct getThreadDistance_rounds as [Hm Hr].
  destruct chosen_bounds as [Hc _]. fold td in Hm, Hr. lia.
Qed.

Lemma getThreadDistance_u64 :
  is_u64 (getThreadDistance MIN_THREAD_DISTANCE MAX_THREAD_DISTANCE ps threads).
Proof. rewrite getThreadDistance_unfold. apply u64_range. Qed.

End DistanceFacts.

Lemma getThreadDistance_bounds_witness :
  0 < getThreadDistance 100 1000 (new_sieve 0 2000 4) 4
  /\ getThreadDistance 100 1000 (new_sieve 0 2000 4) 4 mod 30 = 0
  /\ 100 < getThreadDistance 100 1000 (new_sieve 0 2000 4) 4
  /\ getThreadDistance 100 1000 (new_sieve 0 2000 4) 4
     <= Z.max 1000 ((2000 - 0) / 4) + 30.
Proof.
  apply (getThreadDistance_bounds 100 1000);
    unfold in_range, is_u64, UINT64_MAX; simpl; lia.
Defined.

(** C4 as stated fails: with the thresholds at 10^7 and 2 * 10^10, the range
    [0, 10^18] and 4 threads, the clamp yields 2 * 10^10 and the rounding
    moves the result to 20000000010, above MAX_THREAD_DISTANCE. *)
Lemma getThreadDistance_exceeds_max :
  getThreadDistance 10000000 20000000000 (new_sieve 0 (10 ^ 18) 4) 4 = 20000000010
  /\ ~ (10000000
        <= getThreadDistance 10000000 20000000000 (new_sieve 0 (10 ^ 18) 4) 4
        <= 20000000000).
Proof. split; [vm_compute; reflexivity|]. vm_compute. intros [_ H]. apply H. reflexivity. Qed.

(** The rounding alone takes the result above the cap whatever the
    thresholds are, as long as the cap is within reach of [isqrt(stop) * 1000]:
    over the whole 64-bit range with one thread, the clamp yields the cap
    itself. *)
Lemma getThreadDistance_above_any_max MIN MAX :
  0 < MIN -> MIN <= MAX -> MAX <= 4294967295000 ->
  MAX < getThreadDistance MIN MAX (new_sieve 0 UINT64_MAX 1) 1.
Proof.
  intros H0 H1 H2. unfold getThreadDistance.
  assert (Hd : getDistance (new_sieve 0 UINT64_MAX 1) = UINT64_MAX)
    by (vm_compute; reflexivity).
  assert (Hb : u64 (isqrt (stop_ (new_sieve 0 UINT64_MAX 1)) * 1000) = 4294967295000)
    by (vm_compute; reflexivity).
  rewrite Hd, Hb, Z.div_1_r.
  rewrite (Z.min_l 4294967295000 UINT64_MAX) by (unfold UINT64_MAX; lia).
  assert (Hc : inBetween MIN 4294967295000 MAX = MAX).
  { unfold inBetween. destruct (Z.ltb_spec 4294967295000 MIN); [lia|].
    destruct (Z.gtb_spec 4294967295000 MAX); lia. }
  rewrite Hc. change (u32 (1 * 5)) with 5.
  assert (5 <= UINT64_MAX / MAX)
    by (apply Z.div_le_lower_bound; unfold UINT64_MAX; lia).
  destruct (Z.ltb_spec (UINT64_MAX / MAX) 5); [lia|].
  pose proof (Z.mod_pos_bound MAX 30 ltac:(lia)).
  rewrite u64_small by (unfold UINT64_MAX; lia). lia.
Qed.

(** The fallback to the even split leaves the clamp far behind: with the
    same thresholds, the range [10^15 - 8 * 10^10, 10^15] and 2 threads. *)
Example getThreadDistance_fallback_above_max :
  getThreadDistance 10000000 20000000000
    (new_sieve (10 ^ 15 - 8 * 10 ^ 10) (10 ^ 15) 2) 2 = 40000000020.
Proof. vm_compute. reflexivity. Qed.

(** ** The run as a whole: which path is taken *)

Lemma idealNumThreads_reset MIN ps :
  idealNumThreads MIN (reset ps) = idealNumThreads MIN ps.
Proof. reflexivity. Qed.

Lemma getThreadDistance_reset MIN MAX ps threads :
  getThreadDistance MIN MAX (reset ps) threads = getThreadDistance MIN MAX ps threads.
Proof. reflexivity. Qed.

Lemma iters_of_reset ps td : iters_of (reset ps) td = iters_of ps td.
Proof. reflexivity. Qed.

Lemma chunk_reset ps td i : chunk (reset ps) td i = chunk ps td i.
Proof. reflexivity. Qed.

Section RunFacts.

Variable MIN_THREAD_DISTANCE : Z.
Variable MAX_THREAD_DISTANCE : Z.
Variable engine : Z -> Z -> Counters.
Variable ps : ParallelPrimeSieve.
Variable sched : list nat.
Variable elapsed : Q.

Local Abbreviation ideal := (idealNumThreads MIN_THREAD_DISTANCE ps).
Local Abbreviation distance_of_ideal :=
  (getThreadDistance MIN_THREAD_DISTANCE MAX_THREAD_DISTANCE ps ideal).
Local Abbreviation run :=
  (sieve MIN_THREAD_DISTANCE MAX_THREAD_DISTANCE engine ps sched elapsed).

Lemma sieve_empty_range :
  start_ ps > stop_ ps -> run = mkOutcome (reset ps) 0.
Proof.
  intros H. unfold sieve.
  destruct (Z.gtb_spec (start_ (reset ps)) (stop_ (reset ps))) as [_|Hn];
    [reflexivity | simpl in Hn; lia].
Qed.

Lemma sieve_single_thread :
  start_ ps <= stop_ ps -> ideal = 1 ->
  run = mkOutcome (publish (PrimeSieve_sieve engine (reset ps) elapsed)) 0.
Proof.
  intros H Hk. unfold sieve.
  destruct (Z.gtb_spec (start_ (reset ps)) (stop_ (reset ps))) as [Hn|_];
    [simpl in Hn; lia|].
  rewrite idealNumThreads_reset, Hk. reflexivity.
Qed.

Lemma sieve_multi_thread :
  start_ ps <= stop_ ps -> ideal <> 1 ->
  let iters := iters_of ps distance_of_ideal in
  let threads := inBetween 1 ideal iters in
  run = mkOutcome
          (publish (set_result (reset ps)
             (merged (run_pool engine (reset ps) distance_of_ideal iters threads sched))
             elapsed))
          threads.
Proof.
  intros H Hk. unfold sieve.
  destruct (Z.gtb_spec (start_ (reset ps)) (stop_ (reset ps))) as [Hn|_];
    [simpl in Hn; lia|].
  rewrite idealNumThreads_reset.
  destruct (Z.eqb_spec ideal 1) as [He|_]; [contradiction|].
  rewrite getThreadDistance_reset, iters_of_reset. reflexivity.
Qed.

End RunFacts.

(** ** Size of the thread pool *)

Lemma ceil_div_iters d td :
  1 <= d -> 0 < td -> ceil_div d td = (d - 1) / td + 1.
Proof.
  intros Hd Htd. unfold ceil_div.
  replace (d + td - 1) with (d - 1 + 1 * td) by lia.
  apply Z.div_add. lia.
Qed.

(** The thread table changes its entries, never its size: a pass, a
    schedule of passes and the joins leave as many threads as were created. *)
Lemma worker_step_length engine ps threadDistance iters p t :
  length (workers (worker_step engine ps threadDistance iters p t))
  = length (workers p).
Proof.
  unfold worker_step. destruct (workers p !! t) as [[c|]|]; [|reflexivity..].
  destruct (next_i p >=? iters); cbn [workers]; apply length_insert.
Qed.

Lemma run_schedule_length engine ps threadDistance iters sched : forall p,
  length (workers (run_schedule engine ps threadDistance iters sched p))
  = length (workers p).
Proof.
  induction sched as [|t sched IH]; intros p; [reflexivity|].
  unfold run_schedule in *. cbn [foldl]. rewrite IH. apply worker_step_length.
Qed.

Lemma passes_length engine ps threadDistance iters t (k : nat) p :
  length (workers (Nat.iter k (fun q => worker_step engine ps threadDistance iters q t) p))
  = length (workers p).
Proof.
  induction k as [|k IH]; [reflexivity|].
  cbn [Nat.iter nat_rect]. rewrite worker_step_length. exact IH.
Qed.

Lemma joins_length engine ps threadDistance iters ts : forall p,
  length (workers (foldl (run_to_exit engine ps threadDistance iters) p ts))
  = length (workers p).
Proof.
  induction ts as [|t ts IH]; intros p; [reflexivity|].
  cbn [foldl]. rewrite IH. unfold run_to_exit. apply passes_length.
Qed.

Lemma pool_start_length ps threads :
  length (workers (pool_start ps threads)) = Z.to_nat threads.
Proof. unfold pool_start. cbn [workers]. apply length_replicate. Qed.

Lemma run_pool_length engine ps threadDistance iters threads sched :
  length (workers (run_pool engine ps threadDistance iters threads sched))
  = Z.to_nat threads.
Proof.
  unfold run_pool, join_all.
  rewrite joins_length, run_schedule_length. apply pool_start_length.
Qed.

Section PoolSize.

Variable MIN_THREAD_DISTANCE : Z.
Variable MAX_THREAD_DISTANCE : Z.
Hypothesis MIN_pos : 0 < MIN_THREAD_DISTANCE.
Hypothesis MIN_le_MAX : MIN_THREAD_DISTANCE <= MAX_THREAD_DISTANCE.
Hypothesis MAX_fits : 5 * MAX_THREAD_DISTANCE + 30 <= UINT64_MAX.

Variable engine : Z -> Z -> Counters.
Variable ps : ParallelPrimeSieve.
Hypothesis ps_range : in_range ps.
Hypothesis ps_ordered : start_ ps <= stop_ ps.
Hypothesis threads_int : 1 <= numThreads_ ps <= INT_MAX.

Local Abbreviation distance := (stop_ ps - start_ ps).
Local Abbreviation threshold := (threshold_of MIN_THREAD_DISTANCE ps).
Local Abbreviation ideal := (idealNumThreads MIN_THREAD_DISTANCE ps).
Local Abbreviation threadDistance :=
  (getThreadDistance MIN_THREAD_DISTANCE MAX_THREAD_DISTANCE ps ideal).

Hypothesis multi_threaded : ideal <> 1.


Lemma ideal_facts :
  2 <= ideal <= numThreads_ ps
  /\ ideal * threshold <= distance
  /\ (ideal < numThreads_ ps -> distance < (ideal + 1) * threshold).
Proof.
  pose proof (idealNumThreads_clamp MIN_THREAD_DISTANCE ps ps_range threads_int
                ps_ordered) as Hk.
  pose proof multi_threaded as Hm. rewrite Hk in *.
  pose proof (threshold_pos MIN_THREAD_DISTANCE ps MIN_pos) as Ht.
  pose proof (Z.div_mod distance threshold ltac:(lia)) as He.
  pose proof (Z.mod_pos_bound distance threshold Ht) as Hb.
  unfold clamp in *. split; [lia|]. split; [nia|]. intros Hlt.
  assert (Z.max 1 (Z.min (distance / threshold) (numThreads_ ps))
          = distance / threshold) as -> by lia. nia.
Qed.

Lemma distance_ge_1 : 1 <= distance <= UINT64_MAX.
Proof.
  destruct ideal_facts as (Hk & Hle & _).
  pose proof (threshold_pos MIN_THREAD_DISTANCE ps MIN_pos).
  destruct ps_range as [[? ?] [? ?]]. nia.
Qed.

Lemma threadDistance_pos : 0 < threadDistance <= UINT64_MAX.
Proof.
  destruct ideal_facts as (Hk & _).
  pose proof (getThreadDistance_rounds MIN_THREAD_DISTANCE MAX_THREAD_DISTANCE
                MIN_pos MIN_le_MAX MAX_fits ps ps_range ps_ordered ideal ltac:(lia))
    as (_ & Hp).
  pose proof (chosen_bounds MIN_THREAD_DISTANCE MAX_THREAD_DISTANCE
                MIN_pos MIN_le_MAX MAX_fits ps ps_range ps_ordered ideal ltac:(lia))
    as (Hc & _).
  cbv zeta in Hp.
  pose proof (getThreadDistance_u64 MIN_THREAD_DISTANCE MAX_THREAD_DISTANCE
                ps ps_range ps_ordered ideal) as Hu.
  unfold is_u64 in Hu. lia.
Qed.

Lemma iters_of_ceil :
  iters_of ps threadDistance = ceil_div distance threadDistance
  /\ 1 <= iters_of ps threadDistance <= UINT64_MAX.
Proof.
  pose proof distance_ge_1 as Hd. pose proof threadDistance_pos as Ht.
  unfold iters_of. rewrite getDistance_sub by assumption.
  rewrite (u64_small (distance - 1)) by lia.
  assert (0 <= (distance - 1) / threadDistance <= distance - 1).
  { split; [apply Z.div_pos; lia|].
    apply Z.div_le_upper_bound; [lia|]. nia. }
  rewrite u64_small by lia.
  rewrite ceil_div_iters by lia. lia.
Qed.

(** The per-thread threshold [isqrt(stop) / 5] of any 64-bit [stop] is
    within the chunk cap. *)
Hypothesis MAX_above_threshold : (2 ^ 32 - 1) / 5 <= MAX_THREAD_DISTANCE.

(** The smallest chunk is below a fifth of 2^32: a thread count whose
    product [threads * 5u] wraps its 32 bits is then at least as large as the
    per-thread threshold. *)
Hypothesis MIN_small : 5 * MIN_THREAD_DISTANCE <= 2 ^ 32.

Lemma threshold_bounds : 0 < threshold <= MAX_THREAD_DISTANCE.
Proof.
  unfold threshold_of. destruct ps_range as [_ Hs].
  pose proof (isqrt_u64 _ Hs) as Hq.
  assert (isqrt (stop_ ps) / 5 <= (2 ^ 32 - 1) / 5) by (apply Z.div_le_mono; lia).
  lia.
Qed.

(** Either every configured thread is used, or there are no more chunks
    than threads. *)
Lemma all_threads_or_few_chunks :
  ideal = numThreads_ ps \/ iters_of ps threadDistance <= ideal.
Proof.
  destruct ideal_facts as (Hk & Hle & Hlt).
  pose proof distance_ge_1 as Hd. pose proof threshold_bounds as [Ht HtM].
  pose proof threadDistance_pos as Htd.
  destruct iters_of_ceil as [Hi _]. rewrite Hi, ceil_div_iters by lia.
  assert (Hunf := getThreadDistance_unfold MIN_THREAD_DISTANCE MAX_THREAD_DISTANCE
                    ps ps_range ps_ordered ideal).
  destruct (chosen_bounds MIN_THREAD_DISTANCE MAX_THREAD_DISTANCE MIN_pos MIN_le_MAX
              MAX_fits ps ps_range ps_ordered ideal ltac:(lia)) as [Hc Hfit].
  pose proof (unbalanced_bounds MIN_THREAD_DISTANCE MAX_THREAD_DISTANCE MIN_pos
                MIN_le_MAX MAX_fits ps ps_range ps_ordered ideal ltac:(lia))
    as (Hu0 & Hu1 & Hu2).
  cbv zeta in Hunf.
  destruct (Z.ltb_spec
              (distance / inBetween MIN_THREAD_DISTANCE
                 (Z.min (u64 (isqrt (stop_ ps) * 1000)) (distance / ideal))
                 MAX_THREAD_DISTANCE)
              (u32 (ideal * 5))) as [Hfb|Hnf].
  - (* fallback: the distance exceeds the even split *)
    right.
    destruct (round30_spec (Z.max MIN_THREAD_DISTANCE (distance / ideal))
                ltac:(lia) Hfit) as [_ Hr].
    cbv zeta in Hr. rewrite <- Hunf in Hr.
    assert ((distance - 1) / threadDistance < ideal); [|lia].
    apply Z.div_lt_upper_bound; [lia|]. nia.
  - (* no fallback *)
    destruct (Z.eq_dec ideal (numThreads_ ps)) as [|Hne]; [left; assumption|].
    specialize (Hlt ltac:(lia)).
    set (fc := inBetween _ _ _) in *.
    assert (Hfc : threshold <= fc).
    { subst fc. rewrite inBetween_clamp by assumption. unfold clamp.
      destruct ps_range as [_ Hs]. pose proof (isqrt_u64 _ Hs) as Hq.
      rewrite (u64_small (isqrt (stop_ ps) * 1000)) by (unfold UINT64_MAX; lia).
      assert (isqrt (stop_ ps) / 5 <= isqrt (stop_ ps) * 1000).
      { apply Z.div_le_upper_bound; lia. }
      assert (threshold <= distance / ideal).
      { apply Z.div_le_lower_bound; lia. }
      unfold threshold_of in *. lia. }
    destruct (Z.lt_ge_cases (ideal * 5) (2 ^ 32)) as [Hsmall|Hbig].
    + (* at least five chunks per thread: every configured thread is used *)
      exfalso.
      assert (Hu : u32 (ideal * 5) = ideal * 5).
      { unfold u32. apply Z.mod_small. lia. }
      rewrite Hu in Hnf.
      assert (fc * (ideal * 5) <= distance).
      { pose proof (Z.mul_div_le distance fc ltac:(lia)). nia. }
      nia.
    + (* [threads * 5u] wraps: the thread count exceeds the threshold, and
         chunks longer than the threshold are fewer than the threads *)
      right.
      destruct (round30_spec fc ltac:(lia) Hfit) as [_ Hr].
      cbv zeta in Hr. rewrite <- Hunf in Hr.
      assert (Hti : threshold <= ideal).
      { unfold threshold_of. destruct ps_range as [_ Hs].
        pose proof (isqrt_u64 _ Hs) as Hq.
        assert (isqrt (stop_ ps) / 5 <= (2 ^ 32 - 1) / 5)
          by (apply Z.div_le_mono; lia).
        change ((2 ^ 32 - 1) / 5) with 858993459 in *.
        change (2 ^ 32) with 4294967296 in *. lia. }
      assert ((distance - 1) / threadDistance < ideal); [|lia].
      apply Z.div_lt_upper_bound; [lia|]. nia.
Qed.

(** C9: in a multi-threaded run the pool is created with
    min(numThreads, iters) threads, where iters = ceil(distance /
    threadDistance); it holds that many threads until all of them are joined,
    and that number is at least 1 and never above the number of chunks. The
    thresholds are assumed to satisfy 0 < MIN <= MAX with MIN at most
    2^32 / 5 and MAX at least isqrt(UINT64_MAX) / 5; numThreads is any
    positive [int]. *)
Theorem pool_size (sched : list nat) (elapsed : Q) :
  let iters := ceil_div distance threadDistance in
  let threads := Z.min (numThreads_ ps) iters in
  let pool := run_pool engine (reset ps) threadDistance iters threads sched in
  let run := sieve MIN_THREAD_DISTANCE MAX_THREAD_DISTANCE engine ps sched elapsed in
  run = mkOutcome (publish (set_result (reset ps) (merged pool) elapsed)) threads
  /\ spawned run = threads
  /\ length (workers (pool_start (reset ps) threads)) = Z.to_nat threads
  /\ length (workers pool) = Z.to_nat threads
  /\ 1 <= threads <= iters.
Proof.
  intros iters threads pool run. subst run pool.
  destruct iters_of_ceil as [Hi Hr]. destruct ideal_facts as (Hk & _).
  fold iters in Hi.
  assert (Ht : inBetween 1 ideal (iters_of ps threadDistance) = threads).
  { rewrite inBetween_clamp by lia. unfold clamp. subst threads.
    destruct all_threads_or_few_chunks as [He|Hf]; lia. }
  rewrite sieve_multi_thread by assumption. cbv zeta.
  rewrite Ht, Hi. cbn [spawned].
  split; [reflexivity|]. split; [reflexivity|].
  split; [apply pool_start_length|]. split; [apply run_pool_length|].
  subst threads. lia.
Qed.

End PoolSize.

Lemma pool_size_witness :
  spawned (sieve 10000000 20000000000 prime_engine (new_sieve 0 (10 ^ 9) 4) [] 0%Q)
  = Z.min 4 (ceil_div (10 ^ 9 - 0)
               (getThreadDistance 10000000 20000000000 (new_sieve 0 (10 ^ 9) 4)
                  (idealNumThreads 10000000 (new_sieve 0 (10 ^ 9) 4))))
  /\ length (workers
               (pool_start (reset (new_sieve 0 (10 ^ 9) 4))
                  (Z.min 4 (ceil_div (10 ^ 9 - 0)
                     (getThreadDistance 10000000 20000000000 (new_sieve 0 (10 ^ 9) 4)
                        (idealNumThreads 10000000 (new_sieve 0 (10 ^ 9) 4)))))))
     = Z.to_nat
         (Z.min 4 (ceil_div (10 ^ 9 - 0)
            (getThreadDistance 10000000 20000000000 (new_sieve 0 (10 ^ 9) 4)
               (idealNumThreads 10000000 (new_sieve 0 (10 ^ 9) 4))))).
Proof.
  pose proof (pool_size 10000000 20000000000 ltac:(lia) ltac:(lia)
                ltac:(unfold UINT64_MAX; lia) prime_engine (new_sieve 0 (10 ^ 9) 4)
                ltac:(unfold in_range, is_u64, UINT64_MAX; simpl; lia)
                ltac:(simpl; lia)
                ltac:(unfold INT_MAX; simpl; lia)
                ltac:(vm_compute; discriminate)
                ltac:(vm_compute; discriminate)
                ltac:(lia) [] 0%Q) as H.
  cbv zeta in H. exact (conj (proj1 (proj2 H)) (proj1 (proj2 (proj2 H)))).
Defined.

(** ** Coverage of the range by the chunks *)

Lemma cover_count_cons x c l :
  cover_count x (c :: l)
  = ((if covered_by x c then 1 else 0) + cover_count x l)%nat.
Proof. unfold cover_count. simpl. destruct (covered_by x c); reflexivity. Qed.

(** A tiling covers every point of the range once and no other point. *)
Lemma tiles_cover_count l : forall a b x,
  tiles a b l ->
  cover_count x l = if (a <=? x) && (x <=? b) then 1%nat else 0%nat.
Proof.
  induction l as [|c l IH]; intros a b x Ht.
  - simpl in Ht. subst a. unfold cover_count. simpl.
    destruct (Z.leb_spec (b + 1) x); destruct (Z.leb_spec x b); simpl; try reflexivity; lia.
  - destruct Ht as (Hs & Hb & Ht). rewrite cover_count_cons, (IH _ _ x Ht).
    unfold covered_by. rewrite Hs.
    destruct (Z.leb_spec a x); destruct (Z.leb_spec x (snd c));
      destruct (Z.leb_spec (snd c + 1) x); destruct (Z.leb_spec x b);
      simpl; try reflexivity; lia.
Qed.

Lemma align_le_stop ps n : is_u64 n -> is_u64 (stop_ ps) -> align ps n <= stop_ ps.
Proof.
  intros Hn Hs. rewrite align_math by assumption.
  pose proof (Z.mod_pos_bound n 30 ltac:(lia)).
  destruct (Z.geb_spec (n + 32) (stop_ ps)); lia.
Qed.

Lemma align_at_end ps n :
  is_u64 n -> is_u64 (stop_ ps) -> stop_ ps <= n + 32 -> align ps n = stop_ ps.
Proof.
  intros Hn Hs H. rewrite align_math by assumption.
  destruct (Z.geb_spec (n + 32) (stop_ ps)); lia.
Qed.

Lemma align_ge ps n :
  is_u64 n -> is_u64 (stop_ ps) -> n <= stop_ ps -> n <= align ps n.
Proof.
  intros Hn Hs H. rewrite align_math by assumption.
  pose proof (Z.mod_pos_bound n 30 ltac:(lia)).
  destruct (Z.geb_spec (n + 32) (stop_ ps)); lia.
Qed.

Lemma align_mono ps n m :
  is_u64 n -> is_u64 m -> is_u64 (stop_ ps) -> n <= m -> align ps n <= align ps m.
Proof.
  intros Hn Hm Hs H. rewrite !align_math by assumption.
  pose proof (Z.mod_pos_bound n 30 ltac:(lia)).
  pose proof (Z.mod_pos_bound m 30 ltac:(lia)).
  pose proof (Z.div_mod n 30 ltac:(lia)). pose proof (Z.div_mod m 30 ltac:(lia)).
  assert (n / 30 <= m / 30) by (apply Z.div_le_mono; lia).
  destruct (Z.geb_spec (n + 32) (stop_ ps)); destruct (Z.geb_spec (m + 32) (stop_ ps)); lia.
Qed.

(** The stop of a chunk never wraps: it lies between the chunk's tentative
    start and the global stop, and it is the global stop as soon as the
    tentative start plus the thread distance comes within 32 of it. *)
Lemma chunk_stop_saturates ps chunkStart threadDistance :
  is_u64 chunkStart -> is_u64 threadDistance -> is_u64 (stop_ ps) ->
  chunkStart <= stop_ ps ->
  let chunkStop := align ps (checkedAdd chunkStart threadDistance) in
  chunkStart <= chunkStop <= stop_ ps
  /\ (stop_ ps <= chunkStart + threadDistance + 32 -> chunkStop = stop_ ps).
Proof.
  intros Hc Ht Hs Hle chunkStop. subst chunkStop.
  assert (Ht0 : 0 <= threadDistance) by (unfold is_u64 in Ht; lia).
  pose proof (checkedAdd_range _ _ Hc Ht0) as Hr.
  pose proof (checkedAdd_min _ _ Hc Ht0) as Hm.
  split; [split|].
  - rewrite align_math by assumption.
    pose proof (Z.mod_pos_bound (checkedAdd chunkStart threadDistance) 30 ltac:(lia)).
    unfold is_u64 in *.
    destruct (Z.geb_spec (checkedAdd chunkStart threadDistance + 32) (stop_ ps)); lia.
  - apply align_le_stop; assumption.
  - intros H. apply align_at_end; try assumption. unfold is_u64 in *. lia.
Qed.

Section ChunkFacts.

Variable ps : ParallelPrimeSieve.
Variable threadDistance : Z.
Hypothesis ps_range : in_range ps.
Hypothesis ps_nonempty : start_ ps < stop_ ps.
Hypothesis td_range : 0 < threadDistance <= UINT64_MAX.

Local Abbreviation distance := (stop_ ps - start_ ps).
Local Abbreviation iters := ((distance - 1) / threadDistance + 1).
Local Abbreviation tentative j := (start_ ps + j * threadDistance).

Lemma iters_of_nonempty : iters_of ps threadDistance = iters /\ 1 <= iters <= UINT64_MAX.
Proof.
  destruct ps_range as [[? ?] [? ?]].
  unfold iters_of. rewrite getDistance_sub by (assumption || lia).
  assert (0 <= (distance - 1) / threadDistance <= distance - 1).
  { split; [apply Z.div_pos; lia|].
    apply Z.div_le_upper_bound; [lia|]. nia. }
  rewrite (u64_small (distance - 1)) by lia.
  rewrite u64_small by lia. lia.
Qed.

Lemma tentative_below_stop j :
  0 <= j < iters -> start_ ps <= tentative j <= stop_ ps - 1.
Proof.
  intros Hj.
  pose proof (Z.mul_div_le (distance - 1) threadDistance ltac:(lia)).
  assert (j * threadDistance <= (distance - 1) / threadDistance * threadDistance)
    by (apply Z.mul_le_mono_nonneg_r; lia).
  assert (0 <= j * threadDistance) by (apply Z.mul_nonneg_nonneg; lia).
  lia.
Qed.

Lemma tentative_u64 j :
  0 <= j < iters -> u64 (start_ ps + u64 (j * threadDistance)) = tentative j.
Proof.
  intros Hj. pose proof (tentative_below_stop j Hj).
  destruct ps_range as [[? ?] [? ?]].
  rewrite (u64_small (j * threadDistance)) by nia.
  apply u64_small. lia.
Qed.

Lemma tentative_past_stop : stop_ ps <= tentative iters.
Proof.
  pose proof (Z.div_mod (distance - 1) threadDistance ltac:(lia)).
  pose proof (Z.mod_pos_bound (distance - 1) threadDistance ltac:(lia)). nia.
Qed.

Lemma chunk_start_eq j :
  0 <= j < iters ->
  fst (chunk ps threadDistance j)
  = if j =? 0 then start_ ps else u64 (align ps (tentative j) + 1).
Proof.
  intros Hj. unfold chunk. rewrite tentative_u64 by assumption. simpl.
  destruct (Z.eqb_spec j 0) as [->|Hne].
  - rewrite Z.mul_0_l, Z.add_0_r, Z.gtb_ltb, Z.ltb_irrefl. reflexivity.
  - destruct (Z.gtb_spec (tentative j) (start_ ps)); [reflexivity|nia].
Qed.

Lemma chunk_stop_eq j :
  0 <= j < iters ->
  snd (chunk ps threadDistance j)
  = align ps (checkedAdd (tentative j) threadDistance).
Proof. intros Hj. unfold chunk. rewrite tentative_u64 by assumption. reflexivity. Qed.

(** The start a worker re-derives for a chunk [j >= 1] whose tentative
    start is more than 32 below [stop]: one above the aligned tentative
    start, hence above the tentative start itself. *)
Lemma rederived_start_advances j :
  1 <= j < iters -> tentative j + 32 < stop_ ps ->
  fst (chunk ps threadDistance j) = align ps (tentative j) + 1
  /\ tentative j + 3 <= align ps (tentative j) <= tentative j + 32
  /\ align ps (tentative j) mod 30 = 2
  /\ tentative j < fst (chunk ps threadDistance j).
Proof.
  intros Hj Hlt. pose proof (tentative_below_stop j ltac:(lia)) as Ht.
  rewrite chunk_start_eq by lia. destruct (Z.eqb_spec j 0); [lia|].
  destruct ps_range as [[? ?] [? Hmax]].
  destruct (align_advances ps (tentative j)) as (Ha & Hm & Hs);
    [unfold is_u64; lia | split; assumption | assumption |].
  rewrite (u64_small (align ps (tentative j) + 1)) in * by lia.
  repeat split; try assumption; lia.
Qed.

(** Before the last chunk, a chunk stops where the next tentative start is
    aligned to. *)
Lemma chunk_stop_next j :
  0 <= j -> j + 1 < iters ->
  snd (chunk ps threadDistance j) = align ps (tentative (j + 1)).
Proof.
  intros H0 H1. rewrite chunk_stop_eq by lia.
  pose proof (tentative_below_stop j ltac:(lia)).
  pose proof (tentative_below_stop (j + 1) ltac:(lia)).
  destruct ps_range as [[? ?] [? ?]].
  rewrite checkedAdd_min by (unfold is_u64; lia).
  f_equal. lia.
Qed.

Lemma chunk_stop_last :
  snd (chunk ps threadDistance (iters - 1)) = stop_ ps.
Proof.
  destruct iters_of_nonempty as [_ Hi].
  rewrite chunk_stop_eq by lia.
  pose proof (tentative_below_stop (iters - 1) ltac:(lia)).
  pose proof tentative_past_stop.
  destruct ps_range as [[? ?] [? ?]].
  assert (Hu : is_u64 (tentative (iters - 1))) by (unfold is_u64; lia).
  pose proof (checkedAdd_range _ threadDistance Hu ltac:(lia)).
  apply align_at_end; try assumption; [split; assumption|].
  rewrite checkedAdd_min by (assumption || lia). lia.
Qed.

Lemma chunk_stop_bounds j :
  0 <= j < iters ->
  tentative j <= snd (chunk ps threadDistance j) <= stop_ ps.
Proof.
  intros Hj. rewrite chunk_stop_eq by assumption.
  pose proof (tentative_below_stop j Hj).
  destruct ps_range as [[? ?] [? ?]].
  apply chunk_stop_saturates; unfold is_u64; lia.
Qed.

(** Where chunk [j] has to start for the chunks to be contiguous. *)
Local Abbreviation due j :=
  (if j =? 0 then start_ ps else snd (chunk ps threadDistance (j - 1)) + 1).

Section NoWrap.

(** The increment of an aligned start cannot wrap below the last value. *)
Hypothesis stop_below_max : stop_ ps < UINT64_MAX.

Lemma chunk_start_due j :
  0 <= j < iters -> fst (chunk ps threadDistance j) = due j.
Proof.
  intros Hj. rewrite chunk_start_eq by assumption.
  destruct (Z.eqb_spec j 0); [reflexivity|].
  rewrite chunk_stop_next by lia.
  replace (j - 1 + 1) with j by lia.
  pose proof (tentative_below_stop j Hj).
  destruct ps_range as [[? ?] [? ?]].
  pose proof (align_le_stop ps (tentative j) ltac:(unfold is_u64; lia) ltac:(split; assumption)).
  pose proof (align_ge ps (tentative j) ltac:(unfold is_u64; lia) ltac:(split; assumption) ltac:(lia)).
  apply u64_small. lia.
Qed.

Lemma due_le_stop j :
  0 <= j < iters -> due j - 1 <= snd (chunk ps threadDistance j).
Proof.
  intros Hj. pose proof (chunk_stop_bounds j Hj) as Hb.
  pose proof (tentative_below_stop j Hj).
  destruct (Z.eqb_spec j 0) as [->|Hne]; [lia|].
  rewrite chunk_stop_next by lia. replace (j - 1 + 1) with j by lia.
  rewrite chunk_stop_eq by assumption.
  destruct ps_range as [[? ?] [? ?]].
  assert (Hu : is_u64 (tentative j)) by (unfold is_u64; lia).
  pose proof (checkedAdd_range _ threadDistance Hu ltac:(lia)).
  pose proof (checkedAdd_min _ threadDistance Hu ltac:(lia)).
  assert (align ps (tentative j) <= align ps (checkedAdd (tentative j) threadDistance)).
  { apply align_mono; try assumption; [split; assumption | unfold is_u64 in *; lia]. }
  lia.
Qed.

Lemma tiles_from (n : nat) : forall j,
  0 <= j -> j + Z.of_nat n = iters ->
  tiles (due j) (stop_ ps) (map (chunk ps threadDistance) (seqZ j (Z.of_nat n))).
Proof.
  induction n as [|n IH]; intros j H0 Hn.
  - change (Z.of_nat 0) with 0 in *. rewrite seqZ_nil by lia. cbn [map tiles].
    destruct iters_of_nonempty as [_ Hi].
    destruct (Z.eqb_spec j 0); [lia|].
    replace (j - 1) with (iters - 1) by lia. rewrite chunk_stop_last. reflexivity.
  - rewrite seqZ_cons by lia. cbn [map tiles].
    assert (Hj : 0 <= j < iters) by lia.
    split; [apply chunk_start_due; assumption|].
    split; [split; [apply due_le_stop; assumption | apply chunk_stop_bounds; assumption]|].
    replace (Z.pred (Z.of_nat (S n))) with (Z.of_nat n) by lia.
    specialize (IH (Z.succ j) ltac:(lia) ltac:(lia)).
    destruct (Z.eqb_spec (Z.succ j) 0); [lia|].
    replace (Z.succ j - 1) with j in IH by lia. exact IH.
Qed.

(** When [stop] is below the largest 64-bit value the chunks of the worker
    loop tile [[start, stop]]. *)
Lemma chunks_tile :
  tiles (start_ ps) (stop_ ps) (chunks ps threadDistance (iters_of ps threadDistance)).
Proof.
  destruct iters_of_nonempty as [-> Hi]. unfold chunks.
  pose proof (tiles_from (Z.to_nat iters) 0 ltac:(lia) ltac:(lia)) as H.
  rewrite Z2Nat.id in H by lia. exact H.
Qed.

(** ... and so cover every number of the range exactly once and no number
    outside of it. *)
Lemma chunks_cover_exactly x :
  cover_count x (chunks ps threadDistance (iters_of ps threadDistance))
  = if (start_ ps <=? x) && (x <=? stop_ ps) then 1%nat else 0%nat.
Proof. apply tiles_cover_count, chunks_tile. Qed.

End NoWrap.

Section WrapAtMax.

(** The range ends at the largest value, there are at least two chunks, and
    the last tentative start is within 32 of [stop]. *)
Hypothesis stop_at_max : stop_ ps = UINT64_MAX.
Hypothesis two_chunks : threadDistance <= distance - 1.
Hypothesis short_tail : (distance - 1) mod threadDistance <= 31.

(** The start of the last chunk is then re-derived as [stop + 1], which is 0
    in 64 bits: the last worker is sent over [[0, UINT64_MAX]]. *)
Lemma last_chunk_wraps :
  chunk ps threadDistance (iters_of ps threadDistance - 1) = (0, UINT64_MAX).
Proof.
  destruct iters_of_nonempty as [-> Hi].
  pose proof (Z.div_mod (distance - 1) threadDistance ltac:(lia)) as Hd.
  pose proof (Z.mod_pos_bound (distance - 1) threadDistance ltac:(lia)) as Hm.
  assert (Hq : 1 <= (distance - 1) / threadDistance)
    by (apply Z.div_le_lower_bound; lia).
  assert (Hj : 0 <= iters - 1 < iters) by lia.
  pose proof (tentative_below_stop _ Hj) as Ht.
  rewrite (surjective_pairing (chunk _ _ _)).
  rewrite chunk_stop_last, chunk_start_eq by assumption.
  destruct (Z.eqb_spec (iters - 1) 0); [lia|].
  destruct ps_range as [[? ?] [? ?]].
  rewrite align_at_end; [| unfold is_u64; lia | split; assumption | nia].
  rewrite stop_at_max. reflexivity.
Qed.

End WrapAtMax.

End ChunkFacts.

(** C5: the code departs from the claim. With the thresholds at 10^7 and
    2 * 10^10, the range [18446743673709551414, UINT64_MAX] and 4 threads,
    the planner picks threadDistance 20000000010 and 21 chunks; for the last
    chunk align(start) is the global stop UINT64_MAX and the boundary
    addition align(start) + 1 wraps to 0, below start. *)
Theorem chunk_start_wraps_at_uint64_max :
  let ps := range_to_max in
  let td := getThreadDistance 10000000 20000000000 ps (idealNumThreads 10000000 ps) in
  idealNumThreads 10000000 ps = 4
  /\ td = 20000000010
  /\ iters_of ps td = 21
  /\ align ps (start_ ps + 20 * td) = UINT64_MAX
  /\ chunk ps td 20 = (0, UINT64_MAX)
  /\ fst (chunk ps td 20) < start_ ps.
Proof. vm_compute. repeat split; reflexivity. Qed.

(** C2: the code departs from the claim. On the same run the 21 chunks do
    not tile the range: the last one is [0, UINT64_MAX], so 0, which lies
    outside of [start, stop], is covered, and stop is covered twice. *)
Theorem chunks_overlap_at_uint64_max :
  let ps := range_to_max in
  let td := getThreadDistance 10000000 20000000000 ps (idealNumThreads 10000000 ps) in
  let cs := chunks ps td (iters_of ps td) in
  last cs = Some (0, UINT64_MAX)
  /\ cover_count 0 cs = 1%nat
  /\ cover_count (stop_ ps) cs = 2%nat
  /\ ~ tiles (start_ ps) (stop_ ps) cs.
Proof.
  cbv zeta. split; [vm_compute; reflexivity|].
  split; [vm_compute; reflexivity|]. split; [vm_compute; reflexivity|].
  intros Ht. apply tiles_cover_count with (x := 0) in Ht.
  revert Ht. vm_compute. discriminate.
Qed.

(** C10: the code departs from the claim. On the same run the chunks
    1 .. 19 have a tentative start n with n + 32 < stop; for them align(n)
    lies in [n + 3, n + 32], is 2 modulo 30, and the start the worker
    re-derives is above n. The tentative start of chunk 20 is
    UINT64_MAX - 1, within 32 of stop: align returns stop = UINT64_MAX and
    the re-derived start align(n) + 1 is 0 in 64 bits, not above n. *)
Theorem rederived_start_not_above_at_uint64_max :
  let ps := range_to_max in
  let td := getThreadDistance 10000000 20000000000 ps (idealNumThreads 10000000 ps) in
  let chunkStart i := start_ ps + i * td in
  iters_of ps td = 21
  /\ forallb (fun i =>
               (chunkStart i + 32 <? stop_ ps)
               && (chunkStart i + 3 <=? align ps (chunkStart i))
               && (align ps (chunkStart i) <=? chunkStart i + 32)
               && (align ps (chunkStart i) mod 30 =? 2)
               && (fst (chunk ps td i) =? align ps (chunkStart i) + 1)
               && (chunkStart i <? fst (chunk ps td i)))
             (seqZ 1 19) = true
  /\ chunkStart 20 = UINT64_MAX - 1
  /\ align ps (chunkStart 20) = stop_ ps
  /\ fst (chunk ps td 20) = u64 (align ps (chunkStart 20) + 1)
  /\ fst (chunk ps td 20) = 0
  /\ ~ chunkStart 20 < fst (chunk ps td 20).
Proof. vm_compute. repeat split; try reflexivity. intros H; discriminate H. Qed.

(** ** Counter vectors *)

Lemma u64_add_comm x y : u64 (x + y) = u64 (y + x).
Proof. f_equal. lia. Qed.

Lemma u64_add_assoc x y z : u64 (u64 (x + y) + z) = u64 (x + u64 (y + z)).
Proof.
  unfold u64. rewrite Z.add_mod_idemp_l, Z.add_mod_idemp_r by lia.
  f_equal. lia.
Qed.

Lemma vadd_comm (a : Counters) : forall b, vadd a b = vadd b a.
Proof.
  unfold vadd. induction a as [|x a IH]; intros [|y b]; simpl; try reflexivity.
  rewrite u64_add_comm. f_equal. apply IH.
Qed.

Lemma vadd_assoc (a : Counters) : forall b c, vadd (vadd a b) c = vadd a (vadd b c).
Proof.
  unfold vadd. induction a as [|x a IH]; intros [|y b] [|z c]; simpl; try reflexivity.
  rewrite u64_add_assoc. f_equal. apply IH.
Qed.

Lemma vadd_swap a b c : vadd a (vadd b c) = vadd b (vadd a c).
Proof. rewrite <- !vadd_assoc, (vadd_comm a b). reflexivity. Qed.

Lemma vadd_length a b : length a = 6%nat -> length b = 6%nat -> length (vadd a b) = 6%nat.
Proof. intros Ha Hb. unfold vadd. rewrite length_zip_with. lia. Qed.

Lemma vadd_range a b : Forall is_u64 (vadd a b).
Proof.
  unfold vadd. revert b. induction a as [|x a IH]; intros [|y b]; simpl; constructor.
  - apply u64_range.
  - apply IH.
Qed.

Lemma vadd_wf a b : length a = 6%nat -> length b = 6%nat -> wf_counts (vadd a b).
Proof. intros Ha Hb. split; [apply vadd_length; assumption | apply vadd_range]. Qed.

Lemma zero_counts_wf : wf_counts zero_counts.
Proof. split; [reflexivity|]. repeat constructor; unfold UINT64_MAX; lia. Qed.

Lemma vadd_zero_l c : wf_counts c -> vadd zero_counts c = c.
Proof.
  intros [Hl Hr].
  do 7 (destruct c as [|? c]; try discriminate Hl).
  repeat match goal with H : Forall _ (_ :: _) |- _ => inversion H; subst; clear H end.
  unfold vadd, zero_counts. simpl.
  rewrite !u64_small by assumption. reflexivity.
Qed.

Lemma vadd_zero_r c : wf_counts c -> vadd c zero_counts = c.
Proof. intros H. rewrite vadd_comm. apply vadd_zero_l, H. Qed.

Lemma vsum_wf l : Forall wf_counts l -> wf_counts (vsum l).
Proof.
  induction 1 as [|c l Hc _ IH]; simpl; [apply zero_counts_wf|].
  apply vadd_wf; [apply Hc | apply IH].
Qed.

Lemma vsum_app l1 l2 :
  Forall wf_counts l2 -> vsum (l1 ++ l2) = vadd (vsum l1) (vsum l2).
Proof.
  intros H2. induction l1 as [|c l1 IH]; simpl.
  - symmetry. apply vadd_zero_l, vsum_wf, H2.
  - rewrite IH, vadd_assoc. reflexivity.
Qed.

Lemma vsum_snoc l c :
  wf_counts c -> vsum (l ++ [c]) = vadd (vsum l) c.
Proof.
  intros Hc. rewrite vsum_app by (constructor; [assumption | constructor]).
  simpl. rewrite vadd_zero_r by assumption. reflexivity.
Qed.

(** ** The thread table *)

Lemma live_sum_remove ws : forall t c,
  ws !! t = Some (Some c) ->
  live_sum ws = vadd c (live_sum (<[t := None]> ws)).
Proof.
  induction ws as [|o ws IH]; intros [|t] c H; simpl in H; try discriminate.
  - inversion H; subst. reflexivity.
  - simpl. destruct o as [c0|].
    + rewrite (IH t c H). apply vadd_swap.
    + apply IH, H.
Qed.

Lemma live_sum_update ws t c e :
  ws !! t = Some (Some c) ->
  live_sum (<[t := Some (vadd c e)]> ws) = vadd e (live_sum ws).
Proof.
  intros H.
  assert (Hlt : (t < length ws)%nat) by (eapply lookup_lt_Some; exact H).
  rewrite (live_sum_remove (<[t := Some (vadd c e)]> ws) t (vadd c e))
    by (apply list_lookup_insert_eq; exact Hlt).
  rewrite list_insert_insert_eq.
  rewrite (live_sum_remove ws t c H).
  rewrite (vadd_comm c e), vadd_assoc. reflexivity.
Qed.

Lemma live_sum_none ws :
  (forall t c, ws !! t <> Some (Some c)) -> live_sum ws = zero_counts.
Proof.
  induction ws as [|o ws IH]; intros H; [reflexivity|].
  destruct o as [c|].
  - exfalso. apply (H 0%nat c). reflexivity.
  - simpl. apply IH. intros t c. apply (H (S t) c).
Qed.

Lemma live_sum_start n : live_sum (replicate n (Some zero_counts)) = zero_counts.
Proof. induction n as [|n IH]; [reflexivity|]. simpl. rewrite IH. reflexivity. Qed.

(** ** The worker loop under any schedule *)

Section PoolFacts.

Variable engine : Z -> Z -> Counters.
Variable ps : ParallelPrimeSieve.
Variable threadDistance : Z.
Variable iters : Z.
Variable n : nat.

Hypothesis engine_wf : forall a b, wf_counts (engine a b).
Hypothesis counts_wf : wf_counts (counts_ ps).
Hypothesis iters_range : 0 <= iters <= UINT64_MAX.

Local Abbreviation step := (worker_step engine ps threadDistance iters).
Local Abbreviation Inv := (pool_inv engine ps threadDistance iters n).
Local Abbreviation done_upto i := (sieve_chunks engine (chunks ps threadDistance i)).

Lemma chunks_succ i :
  0 <= i ->
  chunks ps threadDistance (i + 1)
  = chunks ps threadDistance i ++ [chunk ps threadDistance i].
Proof.
  intros Hi. unfold chunks. rewrite seqZ_app by lia.
  rewrite map_app. f_equal.
Qed.

Lemma done_upto_succ i :
  0 <= i ->
  done_upto (i + 1)
  = vadd (done_upto i)
         (engine (fst (chunk ps threadDistance i)) (snd (chunk ps threadDistance i))).
Proof.
  intros Hi. unfold sieve_chunks. rewrite chunks_succ, map_app by assumption.
  simpl map. apply vsum_snoc, engine_wf.
Qed.

Lemma step_idle p t : ~ running p t -> step p t = p.
Proof.
  intros H. unfold worker_step.
  destruct (workers p !! t) as [[c|]|] eqn:E; try reflexivity.
  exfalso. apply H. exists c. exact E.
Qed.

Lemma step_other p t t' :
  t <> t' -> workers (step p t) !! t' = workers p !! t'.
Proof.
  intros Hne. unfold worker_step.
  destruct (workers p !! t) as [[c|]|]; try reflexivity.
  destruct (next_i p >=? iters); simpl; apply list_lookup_insert_ne; assumption.
Qed.

Lemma step_keeps_finished p t t' : ~ running p t' -> ~ running (step p t) t'.
Proof.
  intros H. destruct (decide (t = t')) as [->|Hne].
  - rewrite step_idle by assumption. assumption.
  - unfold running. rewrite step_other by assumption. exact H.
Qed.

Lemma step_inv p t : Inv p -> Inv (step p t).
Proof.
  intros [Hi Hn Hm Hl Hs Hd]. unfold worker_step.
  destruct (workers p !! t) as [[c|]|] eqn:E; try (constructor; assumption).
  assert (Hlt : (t < length (workers p))%nat) by (eapply lookup_lt_Some; exact E).
  destruct (Z.geb_spec (next_i p) iters) as [Hge|Hlt'].
  - (* no chunk left: merge and leave *)
    constructor; simpl.
    + assumption.
    + rewrite length_insert. assumption.
    + apply vadd_wf; [apply Hm | eapply Hl; exact E].
    + intros t' c' H. destruct (decide (t = t')) as [<-|Hne].
      * rewrite list_lookup_insert_eq in H by assumption. discriminate.
      * rewrite list_lookup_insert_ne in H by assumption. eapply Hl; exact H.
    + rewrite <- Hs, (live_sum_remove _ _ _ E), vadd_assoc. reflexivity.
    + intros _ _. lia.
  - (* take chunk [i] *)
    assert (Hu : u64 (next_i p + 1) = next_i p + 1) by (apply u64_small; lia).
    constructor; simpl.
    + lia.
    + rewrite length_insert. assumption.
    + assumption.
    + intros t' c' H. destruct (decide (t = t')) as [<-|Hne].
      * rewrite list_lookup_insert_eq in H by assumption.
        inversion H; subst. apply vadd_length; [eapply Hl; exact E | apply engine_wf].
      * rewrite list_lookup_insert_ne in H by assumption. eapply Hl; exact H.
    + rewrite Hu, done_upto_succ by lia.
      rewrite (live_sum_update _ _ _ _ E).
      rewrite vadd_swap, Hs, vadd_swap. f_equal. apply vadd_comm.
    + intros t' H. destruct (decide (t = t')) as [<-|Hne].
      * rewrite list_lookup_insert_eq in H by assumption. discriminate.
      * rewrite list_lookup_insert_ne in H by assumption.
        specialize (Hd _ H). lia.
Qed.

Lemma run_schedule_inv sched : forall p,
  Inv p -> Inv (run_schedule engine ps threadDistance iters sched p).
Proof.
  unfold run_schedule. induction sched as [|t sched IH]; intros p H; simpl;
    [assumption | apply IH, step_inv, H].
Qed.

(** A thread that keeps passing through its loop leaves it: each pass
    either takes one of the chunks that are left or is the last one. *)
Lemma passes_exit t (k : nat) : forall p,
  Inv p ->
  ~ running p t \/ iters - next_i p + 1 <= Z.of_nat k ->
  let p' := Nat.iter k (fun q => step q t) p in
  Inv p' /\ ~ running p' t /\ (forall t', ~ running p t' -> ~ running p' t').
Proof.
  induction k as [|k IH]; intros p HI Hk.
  - simpl. split; [assumption|]. split; [|intros t' H; exact H].
    destruct Hk as [H|H]; [assumption|]. destruct HI. lia.
  - rewrite Nat.iter_succ_r.
    assert (Hnext : ~ running (step p t) t
                    \/ iters - next_i (step p t) + 1 <= Z.of_nat k).
    { destruct Hk as [H|H]; [left; apply step_keeps_finished, H|].
      unfold worker_step, running at 1.
      destruct (workers p !! t) as [[c|]|] eqn:E.
      - assert ((t < length (workers p))%nat) by (eapply lookup_lt_Some; exact E).
        destruct (Z.geb_spec (next_i p) iters).
        + left. simpl. rewrite list_lookup_insert_eq by assumption.
          intros [c' Hc']. discriminate.
        + right. simpl. destruct HI. rewrite u64_small by lia. lia.
      - left. rewrite E. intros [c' Hc']. discriminate.
      - left. rewrite E. intros [c' Hc']. discriminate. }
    destruct (IH (step p t) (step_inv p t HI) Hnext) as (H1 & H2 & H3).
    split; [assumption|]. split; [assumption|].
    intros t' Ht'. apply H3, step_keeps_finished, Ht'.
Qed.

Lemma passes_idle t (k : nat) p :
  ~ running p t -> Nat.iter k (fun q => step q t) p = p.
Proof.
  intros H. induction k as [|k IH]; [reflexivity|].
  rewrite Nat.iter_succ_r, step_idle by exact H. exact IH.
Qed.

(** What the passes of one thread do while no other thread moves: it takes
    every chunk that is left, one per pass, then adds its local counts, with
    those of these chunks, to the merged counts and leaves; the entries of
    the other threads stay as they are. *)
Lemma passes_trace t (k : nat) : forall p c,
  Inv p -> workers p !! t = Some (Some c) ->
  iters - next_i p + 1 <= Z.of_nat k ->
  let p' := Nat.iter k (fun q => step q t) p in
  workers p' = <[t := None]> (workers p)
  /\ next_i p' = iters
  /\ merged p'
     = vadd (merged p)
         (vadd c (sieve_chunks engine
                    (map (chunk ps threadDistance)
                         (seqZ (next_i p) (iters - next_i p))))).
Proof.
  induction k as [|k IH]; intros p c HI E Hk; [destruct HI; lia|].
  cbv zeta. rewrite Nat.iter_succ_r.
  assert (Hlt : (t < length (workers p))%nat) by (eapply lookup_lt_Some; exact E).
  pose proof (step_inv p t HI) as HI'.
  pose proof HI as [Hi Hn Hm Hl Hs Hd].
  assert (Hq : step p t
               = if next_i p >=? iters
                 then mkPool (next_i p) (<[t := None]> (workers p))
                        (vadd (merged p) c)
                 else mkPool (u64 (next_i p + 1))
                        (<[t := Some (vadd c (engine
                                  (fst (chunk ps threadDistance (next_i p)))
                                  (snd (chunk ps threadDistance (next_i p)))))]>
                           (workers p))
                        (merged p)).
  { unfold worker_step. rewrite E. reflexivity. }
  destruct (Z.geb_spec (next_i p) iters) as [Hge|Hlt'].
  - (* no chunk left: merge and leave; later passes do nothing *)
    rewrite Hq in *. rewrite passes_idle.
    + cbn [workers next_i merged]. split; [reflexivity|]. split; [lia|].
      replace (iters - next_i p) with 0 by lia. rewrite seqZ_nil by lia.
      cbn [map]. change (sieve_chunks engine []) with zero_counts.
      rewrite <- vadd_assoc. symmetry. apply vadd_zero_r.
      apply vadd_wf; [apply Hm | eapply Hl; exact E].
    + intros [c' Hc']. cbn [workers] in Hc'.
      rewrite list_lookup_insert_eq in Hc' by assumption. discriminate.
  - (* take chunk [i] and go on *)
    set (e := engine (fst (chunk ps threadDistance (next_i p)))
                     (snd (chunk ps threadDistance (next_i p)))) in *.
    assert (Hu : u64 (next_i p + 1) = next_i p + 1) by (apply u64_small; lia).
    assert (E' : workers (step p t) !! t = Some (Some (vadd c e))).
    { rewrite Hq. cbn [workers]. apply list_lookup_insert_eq. assumption. }
    assert (Hk' : iters - next_i (step p t) + 1 <= Z.of_nat k).
    { rewrite Hq. cbn [next_i]. lia. }
    destruct (IH (step p t) (vadd c e) HI' E' Hk') as (H1 & H2 & H3).
    rewrite H1, H2, H3. rewrite Hq. cbn [workers next_i merged].
    split; [apply list_insert_insert_eq|]. split; [reflexivity|].
    rewrite Hu. rewrite (seqZ_cons (next_i p) (iters - next_i p)) by lia.
    replace (Z.succ (next_i p)) with (next_i p + 1) by lia.
    replace (Z.pred (iters - next_i p)) with (iters - (next_i p + 1)) by lia.
    cbn [map]. unfold sieve_chunks at 2. cbn [map vsum foldr].
    fold e. rewrite vadd_assoc. reflexivity.
Qed.

Lemma run_to_exit_spec p t :
  Inv p ->
  let p' := run_to_exit engine ps threadDistance iters p t in
  Inv p' /\ ~ running p' t /\ (forall t', ~ running p t' -> ~ running p' t').
Proof.
  intros HI. unfold run_to_exit. apply passes_exit; [assumption|].
  right. destruct HI. lia.
Qed.

Lemma join_spec ts : forall p,
  Inv p ->
  let p' := foldl (run_to_exit engine ps threadDistance iters) p ts in
  Inv p' /\ (forall t, In t ts \/ ~ running p t -> ~ running p' t).
Proof.
  induction ts as [|t ts IH]; intros p HI; simpl.
  - split; [assumption|]. intros t [[]|H]. exact H.
  - destruct (run_to_exit_spec p t HI) as (H1 & H2 & H3).
    destruct (IH _ H1) as [H4 H5]. split; [assumption|].
    intros t' [[->|Hin]|Hf]; apply H5; auto.
Qed.

Lemma pool_start_inv threads :
  n = Z.to_nat threads -> Inv (pool_start ps threads).
Proof.
  intros ->. unfold pool_start. constructor; simpl.
  - lia.
  - apply length_replicate.
  - assumption.
  - intros t c H. apply lookup_replicate in H as [H _]. inversion H. reflexivity.
  - rewrite live_sum_start. reflexivity.
  - intros t H. apply lookup_replicate in H as [H _]. discriminate.
Qed.

(** Whatever the schedule, once every thread has been joined the counts are
    the start counts plus the counts of all [iters] chunks. *)
Lemma run_pool_result threads sched :
  1 <= threads -> n = Z.to_nat threads ->
  merged (run_pool engine ps threadDistance iters threads sched)
  = vadd (counts_ ps) (done_upto iters).
Proof.
  intros Ht Hn. unfold run_pool, join_all.
  pose proof (run_schedule_inv sched _ (pool_start_inv threads Hn)) as HI.
  set (p := run_schedule engine ps threadDistance iters sched (pool_start ps threads)) in *.
  destruct (join_spec (seq 0 (length (workers p))) p HI) as [HJ Hfin].
  set (p' := foldl _ p _) in *.
  assert (Hall : forall t c, workers p' !! t <> Some (Some c)).
  { intros t c H.
    assert ((t < length (workers p'))%nat) by (eapply lookup_lt_Some; exact H).
    apply (Hfin t); [|exists c; exact H].
    left. apply in_seq. destruct HI, HJ. lia. }
  destruct HJ as [Hi Hlen Hm Hl Hs Hd].
  rewrite (live_sum_none _ Hall), vadd_zero_r in Hs by assumption.
  rewrite Hs. destruct (workers p' !! 0%nat) as [[c|]|] eqn:E.
  - exfalso. exact (Hall _ _ E).
  - rewrite (Hd _ E). reflexivity.
  - apply lookup_ge_None in E. lia.
Qed.

End PoolFacts.

(** ** Counts of a run *)

Lemma counts_of_result ps counts seconds :
  counts_ (publish (set_result ps counts seconds)) = counts.
Proof. unfold publish. destruct (shm_ (set_result ps counts seconds)); reflexivity. Qed.

Lemma sieve_chunks_wf engine l :
  (forall a b, wf_counts (engine a b)) -> wf_counts (sieve_chunks engine l).
Proof.
  intros H. unfold sieve_chunks. apply vsum_wf.
  induction l; simpl; constructor; [apply H | assumption].
Qed.

Lemma sieve_chunks_snoc engine l c :
  (forall a b, wf_counts (engine a b)) ->
  sieve_chunks engine (l ++ [c])
  = vadd (sieve_chunks engine l) (engine (fst c) (snd c)).
Proof.
  intros H. unfold sieve_chunks. rewrite map_app. simpl map.
  apply vsum_snoc, H.
Qed.

Section RunCounts.

Variable MIN_THREAD_DISTANCE : Z.
Variable MAX_THREAD_DISTANCE : Z.
Variable engine : Z -> Z -> Counters.
Hypothesis engine_wf : forall a b, wf_counts (engine a b).

Variable ps : ParallelPrimeSieve.
Hypothesis ps_ordered : start_ ps <= stop_ ps.

Local Abbreviation ideal := (idealNumThreads MIN_THREAD_DISTANCE ps).
Local Abbreviation threadDistance :=
  (getThreadDistance MIN_THREAD_DISTANCE MAX_THREAD_DISTANCE ps ideal).

(** The single-threaded path: the engine over the whole range. *)
Lemma sieve_single_counts sched elapsed :
  ideal = 1 ->
  counts_ (object (sieve MIN_THREAD_DISTANCE MAX_THREAD_DISTANCE engine ps sched elapsed))
  = engine (start_ ps) (stop_ ps).
Proof.
  intros Hk. rewrite sieve_single_thread by assumption.
  unfold PrimeSieve_sieve. cbn [object]. apply counts_of_result.
Qed.

(** The multi-threaded path: the engine over every chunk, whatever the
    schedule. *)
Lemma sieve_multi_counts sched elapsed :
  ideal <> 1 -> 1 <= iters_of ps threadDistance <= UINT64_MAX ->
  counts_ (object (sieve MIN_THREAD_DISTANCE MAX_THREAD_DISTANCE engine ps sched elapsed))
  = sieve_chunks engine (chunks ps threadDistance (iters_of ps threadDistance)).
Proof.
  intros Hk Hi. rewrite sieve_multi_thread by assumption.
  cbv zeta. cbn [object]. rewrite counts_of_result.
  pose proof (inBetween_bounds 1 ideal (iters_of ps threadDistance) ltac:(lia)) as Hb.
  rewrite (run_pool_result engine (reset ps) threadDistance (iters_of ps threadDistance)
             (Z.to_nat (inBetween 1 ideal (iters_of ps threadDistance))));
    try assumption; try reflexivity; try lia.
  - change (counts_ (reset ps)) with zero_counts.
    change (chunks (reset ps)) with (chunks ps).
    apply vadd_zero_l, sieve_chunks_wf, engine_wf.
  - apply zero_counts_wf.
Qed.

End RunCounts.

(** ** Chunked and sequential counts agree below the largest value *)

Section Refinement.

Variable engine : Z -> Z -> Counters.

(** What the scheduler relies on: the engine fills six 64-bit counters,
    finds nothing in an empty range, and counts nothing twice or not at all
    when a range is cut behind a number that is 2 modulo 30. *)
Hypothesis engine_wf : forall a b, wf_counts (engine a b).
Hypothesis engine_empty :
  forall a b, is_u64 a -> is_u64 b -> b < a -> engine a b = zero_counts.
Hypothesis engine_split :
  forall a m b, 0 <= a <= m -> m < b <= UINT64_MAX -> m mod 30 = 2 ->
  engine a b = vadd (engine a m) (engine (m + 1) b).

Lemma sum_over_tiles b l : forall a,
  0 <= a -> b < UINT64_MAX ->
  tiles a b l ->
  Forall (fun c => 0 <= snd c /\ (snd c = b \/ snd c mod 30 = 2)) l ->
  l <> [] ->
  sieve_chunks engine l = engine a b.
Proof.
  induction l as [|c l IH]; intros a Ha Hb Ht Hal Hne; [contradiction|].
  destruct Ht as (Hs & He & Ht). inversion Hal as [|? ? [He0 Hcut] Hal']; subst.
  unfold sieve_chunks. simpl map. simpl vsum. fold (sieve_chunks engine l).
  destruct l as [|c' l].
  - simpl in Ht. replace (snd c) with b by lia.
    apply vadd_zero_r, engine_wf.
  - rewrite (IH (snd c + 1)) by (try assumption; try lia; discriminate).
    destruct (Z.eq_dec (snd c) b) as [Heq|Hneq].
    + rewrite Heq, (engine_empty (b + 1) b) by (unfold is_u64; lia).
      apply vadd_zero_r, engine_wf.
    + destruct Hcut as [|Hmod]; [contradiction|].
      destruct (Z.le_gt_cases (fst c) (snd c)) as [Hle|Hgt].
      * symmetry. apply engine_split; lia.
      * rewrite (engine_empty (fst c) (snd c)) by (unfold is_u64; lia).
        replace (snd c + 1) with (fst c) by lia.
        apply vadd_zero_l, engine_wf.
Qed.

Variable MIN_THREAD_DISTANCE : Z.
Variable MAX_THREAD_DISTANCE : Z.
Hypothesis MIN_pos : 0 < MIN_THREAD_DISTANCE.
Hypothesis MIN_le_MAX : MIN_THREAD_DISTANCE <= MAX_THREAD_DISTANCE.
Hypothesis MAX_fits : 5 * MAX_THREAD_DISTANCE + 30 <= UINT64_MAX.

Variable ps : ParallelPrimeSieve.
Hypothesis ps_range : in_range ps.
Hypothesis ps_ordered : start_ ps <= stop_ ps.
Hypothesis threads_int : 1 <= numThreads_ ps <= INT_MAX.
Hypothesis stop_below_max : stop_ ps < UINT64_MAX.

Local Abbreviation ideal := (idealNumThreads MIN_THREAD_DISTANCE ps).
Local Abbreviation threadDistance :=
  (getThreadDistance MIN_THREAD_DISTANCE MAX_THREAD_DISTANCE ps ideal).

Lemma chunk_stops_aligned td :
  0 < td <= UINT64_MAX -> start_ ps < stop_ ps ->
  Forall (fun c => 0 <= snd c /\ (snd c = stop_ ps \/ snd c mod 30 = 2))
         (chunks ps td (iters_of ps td)).
Proof.
  intros Htd Hlt.
  destruct (iters_of_nonempty ps td ps_range Hlt Htd) as [-> Hi].
  unfold chunks. apply Forall_forall. intros c Hc.
  apply list_elem_of_In, in_map_iff in Hc as (j & <- & Hj).
  apply list_elem_of_In, elem_of_seqZ in Hj.
  pose proof (chunk_stop_bounds ps td ps_range Hlt Htd j ltac:(lia)) as Hb.
  pose proof (tentative_below_stop ps td Htd j ltac:(lia)) as Ht.
  destruct ps_range as [[? ?] [? ?]]. split; [lia|].
  rewrite (chunk_stop_eq ps td ps_range Hlt Htd j) by lia.
  set (m := checkedAdd _ _).
  assert (Hm : is_u64 m) by (apply checkedAdd_range; unfold is_u64; lia).
  rewrite align_math by (assumption || split; assumption).
  destruct (Z.geb_spec (m + 32) (stop_ ps)); [left; reflexivity|].
  right. apply align_mod30.
Qed.

(** For a range that ends below the largest 64-bit value, the counts of a
    run are those of the engine over the whole range: they depend neither on
    the number of threads nor on the order in which the threads take the
    chunks. *)
Lemma sieve_counts_any_schedule sched elapsed :
  counts_ (object (sieve MIN_THREAD_DISTANCE MAX_THREAD_DISTANCE engine ps sched elapsed))
  = engine (start_ ps) (stop_ ps).
Proof.
  destruct (Z.eq_dec ideal 1) as [Hk|Hk].
  - apply sieve_single_counts; assumption.
  - pose proof (distance_ge_1 MIN_THREAD_DISTANCE MAX_THREAD_DISTANCE MIN_pos MIN_le_MAX
                  MAX_fits ps ps_range ps_ordered threads_int Hk) as Hd.
    pose proof (threadDistance_pos MIN_THREAD_DISTANCE MAX_THREAD_DISTANCE MIN_pos
                  MIN_le_MAX MAX_fits ps ps_range ps_ordered threads_int Hk) as Htd.
    assert (Hlt : start_ ps < stop_ ps) by lia.
    destruct (iters_of_nonempty ps threadDistance ps_range Hlt Htd) as [Hi Hr].
    rewrite sieve_multi_counts by (assumption || lia).
    destruct ps_range as [[? ?] _].
    apply sum_over_tiles; try assumption.
    + apply chunks_tile; assumption.
    + apply chunk_stops_aligned; assumption.
    + rewrite Hi. unfold chunks. rewrite seqZ_cons by lia. discriminate.
Qed.

End Refinement.

(** ** The prime-counting engine *)

Lemma count_primes_nonneg a b : 0 <= count_primes a b.
Proof. unfold count_primes. lia. Qed.

Lemma count_primes_le a b : count_primes a b <= Z.max 0 (b - a + 1).
Proof.
  unfold count_primes.
  pose proof (List.filter_length_le is_prime (seqZ a (b - a + 1))) as H.
  rewrite length_seqZ in H. lia.
Qed.

Lemma count_primes_split a e b :
  a - 1 <= e <= b ->
  count_primes a b = count_primes a e + count_primes (e + 1) b.
Proof.
  intros H. unfold count_primes.
  replace (b - a + 1) with ((e - a + 1) + (b - (e + 1) + 1)) by lia.
  rewrite seqZ_app by lia.
  rewrite List.filter_app, length_app.
  replace (a + (e - a + 1)) with (e + 1) by lia. lia.
Qed.

Lemma count_primes_empty a b : b < a -> count_primes a b = 0.
Proof. intros H. unfold count_primes. rewrite seqZ_nil by lia. reflexivity. Qed.

Lemma prime_engine_wf a b : wf_counts (prime_engine a b).
Proof.
  split; [reflexivity|]. unfold prime_engine.
  constructor; [apply u64_range|]. repeat constructor; unfold UINT64_MAX; lia.
Qed.

Lemma prime_engine_add x y :
  vadd [u64 x; 0; 0; 0; 0; 0] [u64 y; 0; 0; 0; 0; 0] = [u64 (x + y); 0; 0; 0; 0; 0].
Proof.
  unfold vadd. simpl. f_equal.
  unfold u64. rewrite <- Z.add_mod by lia. reflexivity.
Qed.

Lemma prime_engine_empty a b : b < a -> prime_engine a b = zero_counts.
Proof. intros H. unfold prime_engine. rewrite count_primes_empty by assumption. reflexivity. Qed.

Lemma prime_engine_split a m b :
  a - 1 <= m <= b ->
  prime_engine a b = vadd (prime_engine a m) (prime_engine (m + 1) b).
Proof.
  intros H. unfold prime_engine.
  rewrite prime_engine_add, <- count_primes_split by assumption. reflexivity.
Qed.

Lemma u64_shift_neq a p : 1 <= p < 2 ^ 64 -> u64 (a + p) <> u64 a.
Proof.
  intros Hp H. unfold u64 in H.
  assert (Hz : (a + p - a) mod 2 ^ 64 = 0).
  { rewrite Zminus_mod, H, Z.sub_diag. reflexivity. }
  replace (a + p - a) with p in Hz by lia.
  rewrite Z.mod_small in Hz by lia. lia.
Qed.

Lemma cons_head_eq (x y : Z) (l l' : list Z) : x :: l = y :: l' -> x = y.
Proof. intros H. injection H as H _. exact H. Qed.

(** Counting a second range on top changes the count unless that range
    holds a multiple of 2^64 primes. *)
Lemma prime_engine_shift a b p q :
  1 <= count_primes p q < 2 ^ 64 ->
  vadd (prime_engine a b) (prime_engine p q) <> prime_engine a b.
Proof.
  intros Hp. unfold prime_engine. rewrite prime_engine_add.
  intros H. apply cons_head_eq in H. revert H. apply u64_shift_neq, Hp.
Qed.

(** The prime counts of chunks that tile a range add up to the prime count
    of the range, wherever the cuts are. *)
Lemma prime_chunks_tiles l : forall a b,
  tiles a b l -> sieve_chunks prime_engine l = prime_engine a b.
Proof.
  induction l as [|c l IH]; intros a b Ht.
  - simpl in Ht. subst a. rewrite prime_engine_empty by lia. reflexivity.
  - destruct Ht as (Hs & Hb & Ht).
    unfold sieve_chunks. simpl map. simpl vsum. fold (sieve_chunks prime_engine l).
    rewrite (IH _ _ Ht), Hs. symmetry. apply prime_engine_split. lia.
Qed.

(** There is a prime up to the largest 64-bit value, and not every number
    is one: the count is not a multiple of 2^64. *)
Lemma count_primes_all : 1 <= count_primes 0 UINT64_MAX < 2 ^ 64.
Proof.
  rewrite (count_primes_split 0 2 UINT64_MAX) by (unfold UINT64_MAX; lia).
  assert (H02 : count_primes 0 2 = 1) by (vm_compute; reflexivity).
  pose proof (count_primes_nonneg (2 + 1) UINT64_MAX).
  pose proof (count_primes_le (2 + 1) UINT64_MAX).
  unfold UINT64_MAX in *. lia.
Qed.

(** The engine laws of the refinement hold of the prime-counting engine, so
    below the largest value its counts are those of the sequential run under
    every schedule. *)
Lemma prime_sieve_counts_any_schedule MIN MAX ps sched elapsed :
  0 < MIN -> MIN <= MAX -> 5 * MAX + 30 <= UINT64_MAX ->
  in_range ps -> start_ ps <= stop_ ps -> 1 <= numThreads_ ps <= INT_MAX ->
  stop_ ps < UINT64_MAX ->
  counts_ (object (sieve MIN MAX prime_engine ps sched elapsed))
  = prime_engine (start_ ps) (stop_ ps).
Proof.
  intros. apply sieve_counts_any_schedule; try assumption.
  - apply prime_engine_wf.
  - intros a b _ _ Hlt. apply prime_engine_empty, Hlt.
  - intros a m b Ha Hm _. apply prime_engine_split. lia.
Qed.

Example sieve_300_four_threads :
  counts_ (object (sieve 30 60 prime_engine (new_sieve 0 300 4)
                         [1; 0; 3; 1; 2]%nat 0%Q))
  = [62; 0; 0; 0; 0; 0].
Proof. vm_compute. reflexivity. Qed.

(** ** A range that ends at the largest 64-bit value *)


Lemma range_to_max_plan :
  idealNumThreads 10000000 range_to_max = 4
  /\ getThreadDistance 10000000 20000000000 range_to_max 4 = 20000000010
  /\ iters_of range_to_max 20000000010 = 21
  /\ chunk range_to_max 20000000010 20 = (0, UINT64_MAX).
Proof. vm_compute. repeat split; reflexivity. Qed.

Lemma range_to_max_first_chunks :
  tiles (start_ range_to_max) UINT64_MAX (chunks range_to_max 20000000010 20).
Proof. vm_compute. repeat split; try reflexivity; intros H; discriminate H. Qed.

Lemma range_to_max_ordered : start_ range_to_max <= stop_ range_to_max.
Proof. vm_compute. intros H. discriminate H. Qed.

Lemma range_to_max_counts sched elapsed :
  counts_ (object (sieve 10000000 20000000000 prime_engine range_to_max sched elapsed))
  = vadd (prime_engine (start_ range_to_max) UINT64_MAX) (prime_engine 0 UINT64_MAX).
Proof.
  destruct range_to_max_plan as (Hk & Htd & Hi & Hc).
  assert (Hne : idealNumThreads 10000000 range_to_max <> 1) by (rewrite Hk; lia).
  assert (Hit : 1 <= iters_of range_to_max
                       (getThreadDistance 10000000 20000000000 range_to_max
                          (idealNumThreads 10000000 range_to_max)) <= UINT64_MAX).
  { rewrite Hk, Htd, Hi. unfold UINT64_MAX. lia. }
  rewrite (sieve_multi_counts 10000000 20000000000 prime_engine prime_engine_wf
             range_to_max range_to_max_ordered sched elapsed Hne Hit).
  rewrite Hk, Htd, Hi.
  change 21 with (20 + 1). rewrite chunks_succ by lia. rewrite Hc.
  rewrite (sieve_chunks_snoc prime_engine _ _ prime_engine_wf).
  rewrite (prime_chunks_tiles _ _ _ range_to_max_first_chunks).
  reflexivity.
Qed.

(** C1: the code departs from the claim. On the range
    [18446743673709551414, UINT64_MAX] with the thresholds at 10^7 and
    2 * 10^10 and the prime-counting engine, a run with 4 threads adds, under
    every schedule, the primes of [0, UINT64_MAX] to those of the range (its
    last chunk starts at the wrapped value 0), while a run with 1 thread
    counts the primes of the range: the two Counters differ. *)
Theorem parallel_counts_differ_at_uint64_max (sched : list nat) (elapsed : Q) :
  let four := sieve 10000000 20000000000 prime_engine range_to_max sched elapsed in
  let one :=
    sieve 10000000 20000000000 prime_engine
          (new_sieve (start_ range_to_max) UINT64_MAX 1) sched elapsed in
  spawned four = 4
  /\ spawned one = 0
  /\ counts_ (object one) = prime_engine (start_ range_to_max) UINT64_MAX
  /\ counts_ (object four)
     = vadd (prime_engine (start_ range_to_max) UINT64_MAX) (prime_engine 0 UINT64_MAX)
  /\ counts_ (object four) <> counts_ (object one).
Proof.
  intros four one.
  destruct range_to_max_plan as (Hk & Htd & Hi & _).
  assert (Hne : idealNumThreads 10000000 range_to_max <> 1) by (rewrite Hk; lia).
  assert (Hk1 : idealNumThreads 10000000 (new_sieve (start_ range_to_max) UINT64_MAX 1) = 1)
    by (vm_compute; reflexivity).
  assert (H1 : counts_ (object one) = prime_engine (start_ range_to_max) UINT64_MAX).
  { subst one.
    exact (sieve_single_counts 10000000 20000000000 prime_engine
             (new_sieve (start_ range_to_max) UINT64_MAX 1)
             range_to_max_ordered sched elapsed Hk1). }
  assert (H4 := range_to_max_counts sched elapsed). fold four in H4.
  split; [|split; [|split; [exact H1|split; [exact H4|]]]].
  - subst four.
    rewrite (sieve_multi_thread 10000000 20000000000 prime_engine range_to_max
               sched elapsed range_to_max_ordered Hne).
    cbv zeta. cbn [spawned]. rewrite Hk, Htd, Hi. reflexivity.
  - subst one.
    rewrite (sieve_single_thread 10000000 20000000000 prime_engine
               (new_sieve (start_ range_to_max) UINT64_MAX 1)
               sched elapsed range_to_max_ordered Hk1).
    reflexivity.
  - rewrite H4, H1. apply prime_engine_shift, count_primes_all.
Qed.

(** ** Empty range *)

(** C8: for start > stop the run is not an error: sieve() returns with all
    six Counters zero and without spawning a thread. *)
Theorem empty_range_run MIN MAX engine ps sched elapsed :
  start_ ps > stop_ ps ->
  let run := sieve MIN MAX engine ps sched elapsed in
  counts_ (object run) = [0; 0; 0; 0; 0; 0] /\ spawned run = 0.
Proof.
  intros H run. subst run. rewrite sieve_empty_range by assumption.
  split; reflexivity.
Qed.

Lemma empty_range_run_witness :
  counts_ (object (sieve 10000000 20000000000 prime_engine
                         (mkPPS 100 50 4 [25; 8; 0; 0; 0; 0] 1%Q 0 0%Q Unlocked None)
                         [0; 1]%nat 0%Q))
  = [0; 0; 0; 0; 0; 0]
  /\ spawned (sieve 10000000 20000000000 prime_engine
                    (mkPPS 100 50 4 [25; 8; 0; 0; 0; 0] 1%Q 0 0%Q Unlocked None)
                    [0; 1]%nat 0%Q) = 0.
Proof.
  apply (empty_range_run 10000000 20000000000 prime_engine
           (mkPPS 100 50 4 [25; 8; 0; 0; 0; 0] 1%Q 0 0%Q Unlocked None)).
  simpl. lia.
Defined.

(** ** StatusReporter *)

Section StatusFacts.

Variable percentOf : Z -> Z -> Q.

(** C6 (amended): when the status lock is acquired, updateStatus adds
    processed to the running total, recomputes the percentage, writes the
    percentage into the status field of the sink if one is attached, leaving
    the sink's counts and elapsed time as they are, and returns true; when
    wait is false and the lock is busy it returns false and changes
    nothing. *)
Theorem updateStatus_cases ps processed wait :
  (lock_ ps = Unlocked ->
   exists after,
     updateStatus percentOf ps processed wait = Returns true after
     /\ processed_ after = u64 (processed_ ps + processed)
     /\ percent_ after = percentOf (processed_ after) (getDistance ps)
     /\ shm_ after
        = match shm_ ps with
          | Some shm => Some (mkShm (shm_counts shm) (percent_ after) (shm_seconds shm))
          | None => None
          end
     /\ counts_ after = counts_ ps
     /\ seconds_ after = seconds_ ps
     /\ (start_ after, stop_ after, numThreads_ after, lock_ after)
        = (start_ ps, stop_ ps, numThreads_ ps, lock_ ps))
  /\ (lock_ ps = LockedByOther -> wait = false ->
      updateStatus percentOf ps processed wait = Returns false ps).
Proof.
  split.
  - intros Hl.
    assert (Hg : LockGuard (lock_ ps) wait = Some true) by (rewrite Hl; reflexivity).
    unfold updateStatus. rewrite Hg. cbv zeta.
    change (shm_ (PrimeSieve_updateStatus percentOf ps processed)) with (shm_ ps).
    destruct (shm_ ps) as [shm|] eqn:E;
      (eexists; split; [reflexivity|]; repeat split; simpl; rewrite ?E; reflexivity).
  - intros Hl Hw. unfold updateStatus. rewrite Hl, Hw. reflexivity.
Qed.

End StatusFacts.

Lemma updateStatus_cases_witness :
  (exists after,
     updateStatus percent_int status_demo 500 false = Returns true after
     /\ processed_ after = 500
     /\ shm_ after = Some (mkShm zero_counts (percent_ after) 0%Q))
  /\ updateStatus percent_int status_demo_busy 500 false = Returns false status_demo_busy.
Proof.
  destruct (updateStatus_cases percent_int status_demo 500 false) as [Hfree _].
  destruct (updateStatus_cases percent_int status_demo_busy 500 false) as [_ Hbusy].
  destruct (Hfree eq_refl) as (after & Hr & Hp & _ & Hs & _).
  split; [exists after; repeat split; assumption|].
  apply Hbusy; reflexivity.
Defined.

(** C6 as stated fails: after an update with the lock acquired, the sink
    still holds the counts and the elapsed time it held before, not those
    of the object; only its status field has been written. *)
Lemma updateStatus_leaves_sink_counts :
  updateStatus percent_int status_demo 500 false
  = Returns true
      (mkPPS 0 1000 4 [168; 35; 15; 5; 1; 0] 2%Q 500 (inject_Z 50) Unlocked
             (Some (mkShm zero_counts (inject_Z 50) 0%Q)))
  /\ updateStatus percent_int status_demo 500 false
     <> updateStatus_spec percent_int status_demo 500 false.
Proof. split; [vm_compute; reflexivity|]. vm_compute. intros H. discriminate H. Qed.

(** ** Thread count: construction and configuration *)

Lemma to_int_range z : - 2 ^ 31 <= to_int z <= INT_MAX.
Proof.
  unfold to_int, INT_MAX.
  pose proof (Z.mod_pos_bound (z + 2 ^ 31) (2 ^ 32) ltac:(lia)). lia.
Qed.

Lemma getMaxThreads_range hw : 1 <= getMaxThreads hw <= INT_MAX.
Proof.
  unfold getMaxThreads. pose proof (to_int_range hw).
  unfold INT_MAX in *. lia.
Qed.

Lemma setNumThreads_range hw ps t :
  1 <= numThreads_ (setNumThreads hw ps t) <= getMaxThreads hw.
Proof.
  unfold setNumThreads. cbn [numThreads_ set_numThreads].
  apply inBetween_bounds. apply getMaxThreads_range.
Qed.

(** X1: the thread count of an object is always between 1 and
    getMaxThreads(), itself between 1 and INT_MAX even when the hardware
    reports 0 threads: the constructor sets it to getMaxThreads(), and
    setNumThreads and init clamp whatever they are given. *)
Theorem thread_count_invariant hw base ps t req shm :
  1 <= getMaxThreads hw <= INT_MAX
  /\ getMaxThreads 0 = 1
  /\ getNumThreads (ParallelPrimeSieve_new hw base) = getMaxThreads hw
  /\ 1 <= getNumThreads (setNumThreads hw ps t) <= getMaxThreads hw
  /\ 1 <= getNumThreads (init hw ps req shm) <= getMaxThreads hw.
Proof.
  split; [apply getMaxThreads_range|]. split; [reflexivity|].
  split; [reflexivity|]. split; [apply setNumThreads_range|].
  unfold init, getNumThreads. cbv zeta. cbn [numThreads_ set_shm].
  apply setNumThreads_range.
Qed.

(** X2: setNumThreads followed by getNumThreads reads back the clamp of the
    request: the request itself when it lies in [1, getMaxThreads()], 1 when
    it is below, getMaxThreads() when it is above; setting the value read
    back changes nothing, and range, counters and sink are left alone. *)
Theorem setNumThreads_readback hw ps t :
  let ps' := setNumThreads hw ps t in
  (1 <= t <= getMaxThreads hw -> getNumThreads ps' = t)
  /\ (t < 1 -> getNumThreads ps' = 1)
  /\ (getMaxThreads hw < t -> getNumThreads ps' = getMaxThreads hw)
  /\ setNumThreads hw ps' (getNumThreads ps') = ps'
  /\ (start_ ps', stop_ ps', counts_ ps', shm_ ps')
     = (start_ ps, stop_ ps, counts_ ps, shm_ ps).
Proof.
  intros ps'. pose proof (getMaxThreads_range hw) as Hm.
  assert (Hget : getNumThreads ps' = inBetween 1 t (getMaxThreads hw)) by reflexivity.
  pose proof (inBetween_bounds 1 t (getMaxThreads hw) ltac:(lia)) as Hb.
  rewrite Hget. unfold inBetween in *.
  destruct (Z.ltb_spec t 1); destruct (Z.gtb_spec t (getMaxThreads hw));
    (split; [lia|]); (split; [lia|]); (split; [lia|]); (split; [|reflexivity]);
    subst ps'; unfold setNumThreads, set_numThreads, getNumThreads; cbn;
    unfold inBetween;
    repeat match goal with
           | |- context [?a <? ?b] => destruct (Z.ltb_spec a b); try lia
           | |- context [?a >? ?b] => destruct (Z.gtb_spec a b); try lia
           end; reflexivity.
Qed.

(** ** The sink after a run *)

Lemma publish_sink x shm :
  shm_ x = Some shm ->
  shm_ (publish x) = Some (mkShm (counts_ x) (shm_status shm) (seconds_ x))
  /\ counts_ (publish x) = counts_ x
  /\ seconds_ (publish x) = seconds_ x.
Proof. intros H. unfold publish. rewrite H. repeat split; reflexivity. Qed.

(** X3: after sieve() on a range with start <= stop and a bound sink, the
    sink holds the object's final counts and the elapsed seconds of the run,
    on the single-threaded and on the multi-threaded path alike. *)
Theorem sieve_publishes_to_sink MIN MAX engine ps sched elapsed shm :
  start_ ps <= stop_ ps -> shm_ ps = Some shm ->
  let after := object (sieve MIN MAX engine ps sched elapsed) in
  (exists sink, shm_ after = Some sink
     /\ shm_counts sink = counts_ after
     /\ shm_seconds sink = seconds_ after)
  /\ seconds_ after = elapsed.
Proof.
  intros Hle Hshm after. subst after.
  destruct (Z.eq_dec (idealNumThreads MIN ps) 1) as [Hk|Hk].
  - rewrite sieve_single_thread by assumption. cbn [object].
    destruct (publish_sink (PrimeSieve_sieve engine (reset ps) elapsed) shm Hshm)
      as (H1 & H2 & H3).
    rewrite H1, H2, H3. split; [|reflexivity].
    eexists. split; [reflexivity|]. split; reflexivity.
  - rewrite sieve_multi_thread by assumption. cbv zeta. cbn [object].
    match goal with |- context [publish ?x] =>
      destruct (publish_sink x shm Hshm) as (H1 & H2 & H3) end.
    rewrite H1, H2, H3. split; [|reflexivity].
    eexists. split; [reflexivity|]. split; reflexivity.
Qed.

Lemma sieve_publishes_to_sink_witness :
  (exists sink,
      shm_ (object (sieve 30 60 prime_engine status_demo [0; 1]%nat 7%Q)) = Some sink
      /\ shm_counts sink
         = counts_ (object (sieve 30 60 prime_engine status_demo [0; 1]%nat 7%Q))
      /\ shm_seconds sink
         = seconds_ (object (sieve 30 60 prime_engine status_demo [0; 1]%nat 7%Q)))
  /\ seconds_ (object (sieve 30 60 prime_engine status_demo [0; 1]%nat 7%Q)) = 7%Q.
Proof.
  apply (sieve_publishes_to_sink 30 60 prime_engine status_demo [0; 1]%nat 7%Q
           (mkShm zero_counts 0%Q 0%Q)); [simpl; lia | reflexivity].
Defined.

(** X4: for start > stop sieve() returns before the sink is written: the
    counters of the object are reset to zero, but a bound sink keeps the
    counts, status and seconds it held before the call. *)
Theorem sieve_empty_range_keeps_sink MIN MAX engine ps sched elapsed :
  start_ ps > stop_ ps ->
  let after := object (sieve MIN MAX engine ps sched elapsed) in
  shm_ after = shm_ ps /\ counts_ after = zero_counts.
Proof.
  intros H after. subst after. rewrite sieve_empty_range by assumption.
  split; reflexivity.
Qed.

Lemma sieve_empty_range_keeps_sink_witness :
  shm_ (object (sieve 30 60 prime_engine
                  (mkPPS 100 50 4 [25; 8; 0; 0; 0; 0] 1%Q 0 0%Q Unlocked
                         (Some (mkShm [25; 8; 0; 0; 0; 0] 0%Q 1%Q)))
                  [0; 1]%nat 7%Q))
  = Some (mkShm [25; 8; 0; 0; 0; 0] 0%Q 1%Q)
  /\ counts_ (object (sieve 30 60 prime_engine
                  (mkPPS 100 50 4 [25; 8; 0; 0; 0; 0] 1%Q 0 0%Q Unlocked
                         (Some (mkShm [25; 8; 0; 0; 0; 0] 0%Q 1%Q)))
                  [0; 1]%nat 7%Q))
     = zero_counts.
Proof.
  apply (sieve_empty_range_keeps_sink 30 60 prime_engine
           (mkPPS 100 50 4 [25; 8; 0; 0; 0; 0] 1%Q 0 0%Q Unlocked
                  (Some (mkShm [25; 8; 0; 0; 0; 0] 0%Q 1%Q)))).
  simpl. lia.
Defined.

(** ** When and how far the planner splits *)

Section PlannerExtras.

Variable MIN_THREAD_DISTANCE : Z.
Variable MAX_THREAD_DISTANCE : Z.
Hypothesis MIN_pos : 0 < MIN_THREAD_DISTANCE.

Variable ps : ParallelPrimeSieve.
Hypothesis ps_range : in_range ps.
Hypothesis ps_ordered : start_ ps <= stop_ ps.
Hypothesis threads_int : 1 <= numThreads_ ps <= INT_MAX.

Local Abbreviation distance := (stop_ ps - start_ ps).
Local Abbreviation threshold := (threshold_of MIN_THREAD_DISTANCE ps).
Local Abbreviation ideal := (idealNumThreads MIN_THREAD_DISTANCE ps).

(** X5: more than one thread is planned exactly when at least two threads
    are configured and the distance is at least twice the threshold
    max(MIN_THREAD_DISTANCE, isqrt(stop) / 5); the planned count never
    exceeds numThreads, and every planned thread beyond the first comes with
    a full threshold of distance: ideal * threshold <= distance. *)
Theorem multi_threading_needs_distance :
  1 <= idealNumThreads MIN_THREAD_DISTANCE ps <= numThreads_ ps
  /\ (2 <= idealNumThreads MIN_THREAD_DISTANCE ps
      <-> 2 <= numThreads_ ps
          /\ 2 * threshold_of MIN_THREAD_DISTANCE ps <= stop_ ps - start_ ps)
  /\ (2 <= idealNumThreads MIN_THREAD_DISTANCE ps ->
      idealNumThreads MIN_THREAD_DISTANCE ps * threshold_of MIN_THREAD_DISTANCE ps
      <= stop_ ps - start_ ps).
Proof.
  rewrite (idealNumThreads_clamp MIN_THREAD_DISTANCE ps ps_range threads_int ps_ordered).
  pose proof (threshold_pos MIN_THREAD_DISTANCE ps MIN_pos) as Ht.
  destruct ps_range as [[? ?] [? ?]].
  pose proof (Z.div_mod distance threshold ltac:(lia)) as He.
  pose proof (Z.mod_pos_bound distance threshold Ht) as Hb.
  assert (Hq : 0 <= distance / threshold) by (apply Z.div_pos; lia).
  unfold clamp. split; [lia|]. split; [split|].
  - intros Hk2. split; [lia|]. nia.
  - intros [Hn Hd].
    assert (2 <= distance / threshold) by (apply Z.div_le_lower_bound; lia). lia.
  - intros Hk2. nia.
Qed.

End PlannerExtras.

Lemma multi_threading_needs_distance_witness :
  1 <= idealNumThreads 100 (new_sieve 0 2000 4) <= 4
  /\ (2 <= idealNumThreads 100 (new_sieve 0 2000 4)
      <-> 2 <= 4 /\ 2 * threshold_of 100 (new_sieve 0 2000 4) <= 2000 - 0)
  /\ (2 <= idealNumThreads 100 (new_sieve 0 2000 4) ->
      idealNumThreads 100 (new_sieve 0 2000 4) * threshold_of 100 (new_sieve 0 2000 4)
      <= 2000 - 0).
Proof.
  apply (multi_threading_needs_distance 100 ltac:(lia) (new_sieve 0 2000 4));
    unfold in_range, is_u64, UINT64_MAX, INT_MAX; simpl; lia.
Defined.

Section DistanceExtras.

Variable MIN_THREAD_DISTANCE : Z.
Variable MAX_THREAD_DISTANCE : Z.
Hypothesis MIN_pos : 0 < MIN_THREAD_DISTANCE.
Hypothesis MIN_le_MAX : MIN_THREAD_DISTANCE <= MAX_THREAD_DISTANCE.
Hypothesis MAX_fits : 5 * MAX_THREAD_DISTANCE + 30 <= UINT64_MAX.

Variable ps : ParallelPrimeSieve.
Hypothesis ps_range : in_range ps.
Hypothesis ps_ordered : start_ ps <= stop_ ps.

Variable threads : Z.
Hypothesis threads_pos : 1 <= threads.

Local Abbreviation distance := (stop_ ps - start_ ps).
Local Abbreviation unbalanced := (distance / threads).
Local Abbreviation first_choice :=
  (inBetween MIN_THREAD_DISTANCE (Z.min (u64 (isqrt (stop_ ps) * 1000)) unbalanced)
             MAX_THREAD_DISTANCE).
Local Abbreviation fallback := (distance / first_choice <? u32 (threads * 5)).
Local Abbreviation td :=
  (getThreadDistance MIN_THREAD_DISTANCE MAX_THREAD_DISTANCE ps threads).

(** X6: when getThreadDistance falls back to the even split (fewer than
    threads * 5 chunks of the first choice), the distance it returns times
    the number of threads exceeds the distance of the range: there are at
    most as many chunks as threads. *)
Theorem fallback_one_chunk_per_thread :
  fallback = true ->
  distance < threads * td
  /\ (1 <= distance -> ceil_div distance td <= threads).
Proof.
  intros Hfb.
  pose proof (getThreadDistance_rounds MIN_THREAD_DISTANCE MAX_THREAD_DISTANCE
                MIN_pos MIN_le_MAX MAX_fits ps ps_range ps_ordered threads threads_pos)
    as (_ & Hr).
  cbv zeta in Hr. rewrite Hfb in Hr.
  pose proof (unbalanced_bounds MIN_THREAD_DISTANCE MAX_THREAD_DISTANCE MIN_pos
                MIN_le_MAX MAX_fits ps ps_range ps_ordered threads threads_pos)
    as (Hu0 & Hu1 & Hu2).
  assert (Hlt : distance < threads * td) by nia.
  split; [exact Hlt|]. intros Hd.
  rewrite ceil_div_iters by lia.
  assert ((distance - 1) / td < threads); [|lia].
  apply Z.div_lt_upper_bound; lia.
Qed.

(** X7: whatever the range, the rounding up to a multiple of 30 does not
    wrap in 64 bits, and the result is at most 5 * MAX_THREAD_DISTANCE + 29;
    without the fallback it is at most MAX_THREAD_DISTANCE + 30. *)
Theorem getThreadDistance_never_wraps :
  getThreadDistance MIN_THREAD_DISTANCE MAX_THREAD_DISTANCE ps threads
  <= 5 * MAX_THREAD_DISTANCE + 29
  /\ (fallback = false ->
      getThreadDistance MIN_THREAD_DISTANCE MAX_THREAD_DISTANCE ps threads
      = first_choice + (30 - first_choice mod 30)
      /\ getThreadDistance MIN_THREAD_DISTANCE MAX_THREAD_DISTANCE ps threads
         <= MAX_THREAD_DISTANCE + 30)
  /\ (fallback = true ->
      getThreadDistance MIN_THREAD_DISTANCE MAX_THREAD_DISTANCE ps threads
      = Z.max MIN_THREAD_DISTANCE unbalanced
        + (30 - Z.max MIN_THREAD_DISTANCE unbalanced mod 30)).
Proof.
  pose proof (getThreadDistance_unfold MIN_THREAD_DISTANCE MAX_THREAD_DISTANCE
                ps ps_range ps_ordered threads) as Hunf.
  pose proof (chosen_bounds MIN_THREAD_DISTANCE MAX_THREAD_DISTANCE MIN_pos MIN_le_MAX
                MAX_fits ps ps_range ps_ordered threads threads_pos) as [Hc Hfit].
  pose proof (inBetween_bounds MIN_THREAD_DISTANCE
                (Z.min (u64 (isqrt (stop_ ps) * 1000)) unbalanced)
                MAX_THREAD_DISTANCE MIN_le_MAX) as Hf.
  pose proof (fallback_unbalanced MIN_THREAD_DISTANCE MAX_THREAD_DISTANCE MIN_pos
                MIN_le_MAX MAX_fits ps ps_range ps_ordered threads threads_pos) as Hfu.
  cbv zeta in Hunf. rewrite Hunf.
  destruct fallback eqn:Hfb.
  - specialize (Hfu eq_refl).
    pose proof (Z.mod_pos_bound (Z.max MIN_THREAD_DISTANCE unbalanced) 30 ltac:(lia)).
    rewrite u64_small by lia.
    split; [lia|]. split; [discriminate | reflexivity].
  - pose proof (Z.mod_pos_bound first_choice 30 ltac:(lia)).
    rewrite u64_small by lia.
    split; [lia|]. split; [intros _; split; [reflexivity | lia] | discriminate].
Qed.

End DistanceExtras.

(** Side conditions of a statement at concrete values. *)
Ltac concrete :=
  first [ lia
        | unfold in_range, is_u64, UINT64_MAX, INT_MAX; simpl; lia
        | vm_compute; repeat split;
          first [reflexivity | discriminate
                | let H := fresh in intros H; discriminate H] ].

Lemma fallback_one_chunk_per_thread_witness :
  2000 - 0 < 4 * getThreadDistance 100 1000 (new_sieve 0 2000 4) 4
  /\ (1 <= 2000 - 0 ->
      ceil_div (2000 - 0) (getThreadDistance 100 1000 (new_sieve 0 2000 4) 4) <= 4).
Proof.
  apply (fallback_one_chunk_per_thread 100 1000 ltac:(lia) ltac:(lia) ltac:(concrete)
           (new_sieve 0 2000 4) ltac:(concrete) ltac:(concrete) 4 ltac:(lia)).
  vm_compute. reflexivity.
Defined.

Lemma getThreadDistance_never_wraps_witness :
  getThreadDistance 10000000 20000000000 (new_sieve 0 (10 ^ 18) 4) 4
  <= 5 * 20000000000 + 29.
Proof.
  exact (proj1 (getThreadDistance_never_wraps 10000000 20000000000
                  ltac:(lia) ltac:(lia) ltac:(concrete)
                  (new_sieve 0 (10 ^ 18) 4) ltac:(concrete) ltac:(concrete)
                  4 ltac:(lia))).
Defined.

(** ** Threads spawned by a run *)

Section SpawnExtras.

Variable MIN_THREAD_DISTANCE : Z.
Variable MAX_THREAD_DISTANCE : Z.
Hypothesis MIN_pos : 0 < MIN_THREAD_DISTANCE.
Hypothesis MIN_le_MAX : MIN_THREAD_DISTANCE <= MAX_THREAD_DISTANCE.
Hypothesis MAX_fits : 5 * MAX_THREAD_DISTANCE + 30 <= UINT64_MAX.
Variable engine : Z -> Z -> Counters.

Lemma spawned_le_numThreads ps sched elapsed :
  in_range ps -> 1 <= numThreads_ ps <= INT_MAX ->
  let run := sieve MIN_THREAD_DISTANCE MAX_THREAD_DISTANCE engine ps sched elapsed in
  0 <= spawned run <= numThreads_ ps
  /\ (spawned run <> 0 ->
      start_ ps <= stop_ ps
      /\ idealNumThreads MIN_THREAD_DISTANCE ps <> 1
      /\ 1 <= spawned run <= idealNumThreads MIN_THREAD_DISTANCE ps).
Proof.
  intros Hr Hn run. subst run.
  destruct (Z.le_gt_cases (start_ ps) (stop_ ps)) as [Hle|Hgt].
  - destruct (Z.eq_dec (idealNumThreads MIN_THREAD_DISTANCE ps) 1) as [Hk|Hk].
    + rewrite sieve_single_thread by assumption. cbn [spawned].
      split; [lia|]. intros H. contradiction.
    + rewrite sieve_multi_thread by assumption. cbv zeta. cbn [spawned].
      pose proof (idealNumThreads_range MIN_THREAD_DISTANCE ps Hn) as Hi.
      destruct (iters_of_ceil MIN_THREAD_DISTANCE MAX_THREAD_DISTANCE MIN_pos
                  MIN_le_MAX MAX_fits ps Hr Hle Hn Hk) as [_ Hit].
      rewrite inBetween_clamp by lia. unfold clamp.
      split; [lia|]. intros _. split; [assumption|]. split; [assumption|]. lia.
  - rewrite sieve_empty_range by lia. cbn [spawned].
    split; [lia|]. intros H. contradiction.
Qed.

Variable hardware_concurrency : Z.

(** X8: whatever thread count is requested through setNumThreads, a run
    never spawns more threads than that request clamped to
    [1, getMaxThreads()], hence never more than getMaxThreads(). *)
Theorem sieve_respects_thread_limits ps t sched elapsed :
  in_range ps ->
  let ps' := setNumThreads hardware_concurrency ps t in
  let run := sieve MIN_THREAD_DISTANCE MAX_THREAD_DISTANCE engine ps' sched elapsed in
  0 <= spawned run <= getNumThreads ps'
  /\ spawned run <= Z.max 1 t
  /\ spawned run <= getMaxThreads hardware_concurrency.
Proof.
  intros Hr ps' run.
  pose proof (setNumThreads_range hardware_concurrency ps t) as Hn. fold ps' in Hn.
  pose proof (getMaxThreads_range hardware_concurrency) as Hm.
  assert (Hr' : in_range ps') by exact Hr.
  destruct (spawned_le_numThreads ps' sched elapsed Hr' ltac:(lia)) as [Hs _].
  fold run in Hs. unfold getNumThreads.
  assert (numThreads_ ps' <= Z.max 1 t).
  { subst ps'. unfold setNumThreads. cbn [numThreads_ set_numThreads].
    unfold inBetween. destruct (Z.ltb_spec t 1); [lia|].
    destruct (Z.gtb_spec t (getMaxThreads hardware_concurrency)); lia. }
  lia.
Qed.

(** X9: a range whose distance is below twice the threshold
    max(MIN_THREAD_DISTANCE, isqrt(stop) / 5), or an object configured for
    one thread, is sieved by the caller: no thread is spawned and the
    Counters are those of the engine over [start, stop]. *)
Theorem small_range_runs_on_caller ps sched elapsed :
  in_range ps -> start_ ps <= stop_ ps -> 1 <= numThreads_ ps <= INT_MAX ->
  stop_ ps - start_ ps < 2 * threshold_of MIN_THREAD_DISTANCE ps
  \/ numThreads_ ps = 1 ->
  let run := sieve MIN_THREAD_DISTANCE MAX_THREAD_DISTANCE engine ps sched elapsed in
  spawned run = 0
  /\ counts_ (object run) = engine (start_ ps) (stop_ ps).
Proof.
  intros Hr Hle Hn Hsmall run. subst run.
  assert (Hk : idealNumThreads MIN_THREAD_DISTANCE ps = 1).
  { rewrite (idealNumThreads_clamp MIN_THREAD_DISTANCE ps Hr Hn Hle).
    pose proof (threshold_pos MIN_THREAD_DISTANCE ps MIN_pos) as Ht.
    destruct Hr as [[? ?] [? ?]].
    assert (Hq : 0 <= (stop_ ps - start_ ps) / threshold_of MIN_THREAD_DISTANCE ps)
      by (apply Z.div_pos; lia).
    unfold clamp. destruct Hsmall as [Hd|Hone]; [|lia].
    assert ((stop_ ps - start_ ps) / threshold_of MIN_THREAD_DISTANCE ps < 2)
      by (apply Z.div_lt_upper_bound; lia).
    lia. }
  split.
  - rewrite sieve_single_thread by assumption. reflexivity.
  - apply sieve_single_counts; assumption.
Qed.

End SpawnExtras.

Lemma sieve_respects_thread_limits_witness :
  0 <= spawned (sieve 30 60 prime_engine (setNumThreads 8 (new_sieve 0 300 1) 100)
                      [1; 0]%nat 0%Q)
    <= getNumThreads (setNumThreads 8 (new_sieve 0 300 1) 100)
  /\ spawned (sieve 30 60 prime_engine (setNumThreads 8 (new_sieve 0 300 1) 100)
                    [1; 0]%nat 0%Q) <= Z.max 1 100
  /\ spawned (sieve 30 60 prime_engine (setNumThreads 8 (new_sieve 0 300 1) 100)
                    [1; 0]%nat 0%Q) <= getMaxThreads 8.
Proof.
  apply (sieve_respects_thread_limits 30 60 ltac:(lia) ltac:(lia) ltac:(concrete)
           prime_engine 8 (new_sieve 0 300 1) 100 [1; 0]%nat 0%Q).
  concrete.
Defined.

Lemma small_range_runs_on_caller_witness :
  spawned (sieve 100 1000 prime_engine (new_sieve 0 150 4) [1; 0]%nat 0%Q) = 0
  /\ counts_ (object (sieve 100 1000 prime_engine (new_sieve 0 150 4) [1; 0]%nat 0%Q))
     = prime_engine 0 150.
Proof.
  apply (small_range_runs_on_caller 100 1000 ltac:(lia) prime_engine
           (new_sieve 0 150 4) [1; 0]%nat 0%Q);
    [concrete | concrete | concrete | left; vm_compute; reflexivity].
Defined.

(** ** The pool between passes and at the end *)

Section PoolExtras.

Variable engine : Z -> Z -> Counters.
Variable ps : ParallelPrimeSieve.
Variable threadDistance : Z.
Variable iters : Z.

Hypothesis engine_wf : forall a b, wf_counts (engine a b).
Hypothesis counts_wf : wf_counts (counts_ ps).
Hypothesis iters_range : 0 <= iters <= UINT64_MAX.

Local Abbreviation step := (worker_step engine ps threadDistance iters).
Local Abbreviation after_schedule sched threads :=
  (run_schedule engine ps threadDistance iters sched (pool_start ps threads)).

Lemma after_schedule_inv sched threads :
  pool_inv engine ps threadDistance iters (Z.to_nat threads)
           (after_schedule sched threads).
Proof.
  apply run_schedule_inv; try assumption.
  apply pool_start_inv; try assumption. reflexivity.
Qed.

(** X10: between passes, that is whenever no thread is in the middle of a
    chunk (each has added the counts of the chunk it took last to its local
    counts), and whatever the order in which the threads came to the lock:
    the chunk index is within [0, iters], the number of threads is
    unchanged, no thread has left its loop while a chunk is left, every
    vector has six entries, and no count is lost or counted twice: the
    merged counts plus the local counts of the threads that have not merged
    are the start counts plus the counts of exactly the chunks 0 .. i-1
    handed out so far. *)
Theorem pool_state_any_schedule sched threads :
  let p := after_schedule sched threads in
  0 <= next_i p <= iters
  /\ length (workers p) = Z.to_nat threads
  /\ (forall t, workers p !! t = Some None -> next_i p = iters)
  /\ wf_counts (merged p)
  /\ (forall t c, workers p !! t = Some (Some c) -> length c = 6%nat)
  /\ vadd (merged p) (live_sum (workers p))
     = vadd (counts_ ps)
            (sieve_chunks engine (chunks ps threadDistance (next_i p))).
Proof.
  intros p. destruct (after_schedule_inv sched threads) as [H1 H2 H3 H4 H5 H6].
  split; [exact H1|]. split; [exact H2|]. split; [exact H6|].
  split; [exact H3|]. split; [exact H4 | exact H5].
Qed.

(** X11: the loop of a worker ends. From any state between passes of a run,
    let thread t make one pass more than there are chunks left, no other
    thread moving meanwhile. If t was in its loop with local counts c, it
    has taken every chunk that was left, the index stands at iters, t has
    left, the other threads are as they were, and counts_ has grown by c and
    the counts of the chunks t took. If t had left before, or names no
    thread, nothing has changed. In both cases every thread of the pool
    named by t has left, and a further pass changes nothing. *)
Theorem worker_loop_terminates sched threads t (k : nat) :
  let p := after_schedule sched threads in
  iters - next_i p + 1 <= Z.of_nat k ->
  let p' := Nat.iter k (fun q => step q t) p in
  (forall c, workers p !! t = Some (Some c) ->
     workers p' = <[t := None]> (workers p)
     /\ next_i p' = iters
     /\ merged p'
        = vadd (merged p)
            (vadd c (sieve_chunks engine
                       (map (chunk ps threadDistance)
                            (seqZ (next_i p) (iters - next_i p))))))
  /\ (~ running p t -> p' = p)
  /\ ((t < Z.to_nat threads)%nat -> workers p' !! t = Some None)
  /\ step p' t = p'.
Proof.
  intros p Hk p'.
  pose proof (after_schedule_inv sched threads) as HI.
  assert (Htrace : forall c, workers p !! t = Some (Some c) ->
            workers p' = <[t := None]> (workers p)
            /\ next_i p' = iters
            /\ merged p'
               = vadd (merged p)
                   (vadd c (sieve_chunks engine
                              (map (chunk ps threadDistance)
                                   (seqZ (next_i p) (iters - next_i p)))))).
  { intros c E.
    exact (passes_trace engine ps threadDistance iters (Z.to_nat threads)
             engine_wf iters_range t k p c HI E Hk). }
  assert (Hidle : ~ running p t -> p' = p).
  { intros H. apply (passes_idle engine ps threadDistance iters). exact H. }
  assert (Hlen : length (workers p) = Z.to_nat threads) by (destruct HI; assumption).
  split; [exact Htrace|]. split; [exact Hidle|]. split.
  - intros Ht. destruct (workers p !! t) as [[c|]|] eqn:E.
    + destruct (Htrace c eq_refl) as (Hw & _). rewrite Hw.
      apply list_lookup_insert_eq. lia.
    + rewrite Hidle; [exact E|]. intros [c Hc]. congruence.
    + apply lookup_ge_None in E. lia.
  - destruct (passes_exit engine ps threadDistance iters (Z.to_nat threads)
                engine_wf iters_range t k p HI (or_intror Hk)) as (_ & Hf & _).
    apply step_idle. exact Hf.
Qed.

(** X12: when all threads have been joined, every thread has left its loop,
    the index stands at iters, and the merged counts are the start counts
    plus the counts of each of the chunks 0 .. iters-1 taken once: the result
    is the same for every number of threads and every schedule. *)
Theorem pool_joined_counts_every_chunk_once threads sched :
  1 <= threads ->
  let p := run_pool engine ps threadDistance iters threads sched in
  merged p
  = vadd (counts_ ps) (sieve_chunks engine (chunks ps threadDistance iters))
  /\ next_i p = iters
  /\ (forall t, ~ running p t)
  /\ (forall threads' sched', 1 <= threads' ->
      merged (run_pool engine ps threadDistance iters threads' sched') = merged p).
Proof.
  intros Ht p.
  assert (Hm : forall n s, 1 <= n ->
            merged (run_pool engine ps threadDistance iters n s)
            = vadd (counts_ ps) (sieve_chunks engine (chunks ps threadDistance iters))).
  { intros n s Hn.
    apply (run_pool_result engine ps threadDistance iters (Z.to_nat n));
      try assumption. reflexivity. }
  pose proof (after_schedule_inv sched threads) as HI.
  destruct (join_spec engine ps threadDistance iters (Z.to_nat threads)
              engine_wf iters_range
              (seq 0 (length (workers (after_schedule sched threads))))
              (after_schedule sched threads) HI) as [HJ Hfin].
  cbv zeta in HJ, Hfin.
  assert (Hp : p = foldl (run_to_exit engine ps threadDistance iters)
                     (after_schedule sched threads)
                     (seq 0 (length (workers (after_schedule sched threads)))))
    by reflexivity.
  rewrite <- Hp in HJ, Hfin.
  assert (Hall : forall t, ~ running p t).
  { intros t [c Hc].
    assert ((t < length (workers p))%nat) by (eapply lookup_lt_Some; exact Hc).
    apply (Hfin t); [|exists c; exact Hc].
    left. apply in_seq. destruct HI, HJ. lia. }
  split; [apply Hm, Ht|]. split; [|split; [exact Hall|]].
  - destruct HJ as [Hi Hlen _ _ _ Hd].
    destruct (workers p !! 0%nat) as [[c|]|] eqn:E.
    + exfalso. apply (Hall 0%nat). exists c. exact E.
    + apply (Hd _ E).
    + apply lookup_ge_None in E. lia.
  - intros n s Hn. rewrite (Hm n s Hn). symmetry. apply Hm, Ht.
Qed.

End PoolExtras.

Lemma pool_state_any_schedule_witness :
  0 <= next_i (run_schedule prime_engine (new_sieve 0 300 4) 90 4 [1; 0; 3]%nat
                 (pool_start (new_sieve 0 300 4) 4)) <= 4.
Proof.
  exact (proj1 (pool_state_any_schedule prime_engine (new_sieve 0 300 4) 90 4
                  prime_engine_wf zero_counts_wf ltac:(concrete) [1; 0; 3]%nat 4)).
Defined.

Lemma worker_loop_terminates_witness :
  workers (Nat.iter 5 (fun q => worker_step prime_engine (new_sieve 0 300 4) 90 4 q 2%nat)
             (run_schedule prime_engine (new_sieve 0 300 4) 90 4 [1; 0]%nat
                (pool_start (new_sieve 0 300 4) 4))) !! 2%nat
  = Some None
  /\ worker_step prime_engine (new_sieve 0 300 4) 90 4
       (Nat.iter 5 (fun q => worker_step prime_engine (new_sieve 0 300 4) 90 4 q 2%nat)
          (run_schedule prime_engine (new_sieve 0 300 4) 90 4 [1; 0]%nat
             (pool_start (new_sieve 0 300 4) 4))) 2%nat
     = Nat.iter 5 (fun q => worker_step prime_engine (new_sieve 0 300 4) 90 4 q 2%nat)
         (run_schedule prime_engine (new_sieve 0 300 4) 90 4 [1; 0]%nat
            (pool_start (new_sieve 0 300 4) 4)).
Proof.
  pose proof (worker_loop_terminates prime_engine (new_sieve 0 300 4) 90 4
                prime_engine_wf zero_counts_wf ltac:(concrete) [1; 0]%nat 4
                2%nat 5%nat ltac:(vm_compute; discriminate)) as H.
  cbv zeta in H.
  exact (conj (proj1 (proj2 (proj2 H)) ltac:(simpl; lia)) (proj2 (proj2 (proj2 H)))).
Defined.

Lemma pool_joined_counts_every_chunk_once_witness :
  merged (run_pool prime_engine (new_sieve 0 300 4) 90 4 4 [1; 0; 3]%nat)
  = vadd (counts_ (new_sieve 0 300 4))
         (sieve_chunks prime_engine (chunks (new_sieve 0 300 4) 90 4)).
Proof.
  exact (proj1 (pool_joined_counts_every_chunk_once prime_engine (new_sieve 0 300 4) 90 4
                  prime_engine_wf zero_counts_wf ltac:(concrete) 4 [1; 0; 3]%nat
                  ltac:(lia))).
Defined.

(** ** Aligner: order and bounds *)

(** X13: align is monotone, never returns more than stop, never returns
    less than its argument when that is at most stop, and returns stop for
    every argument from stop on; its result is a 64-bit value. *)
Theorem align_monotone_bounded ps n m :
  is_u64 n -> is_u64 m -> is_u64 (stop_ ps) ->
  (n <= m -> align ps n <= align ps m)
  /\ align ps n <= stop_ ps
  /\ (n <= stop_ ps -> n <= align ps n)
  /\ (stop_ ps <= n -> align ps n = stop_ ps)
  /\ is_u64 (align ps n).
Proof.
  intros Hn Hm Hs.
  pose proof (align_le_stop ps n Hn Hs) as Hle.
  split; [intros H; apply align_mono; assumption|].
  split; [exact Hle|].
  split; [intros H; apply align_ge; assumption|].
  split; [intros H; apply align_at_end; try assumption; lia|].
  rewrite align_math in * by assumption.
  pose proof (Z.mod_pos_bound n 30 ltac:(lia)).
  unfold is_u64 in *.
  destruct (Z.geb_spec (n + 32) (stop_ ps)); lia.
Qed.

Lemma align_monotone_bounded_witness :
  (45 <= 77 -> align (new_sieve 0 1000 1) 45 <= align (new_sieve 0 1000 1) 77)
  /\ align (new_sieve 0 1000 1) 45 <= 1000
  /\ (45 <= 1000 -> 45 <= align (new_sieve 0 1000 1) 45)
  /\ (1000 <= 45 -> align (new_sieve 0 1000 1) 45 = 1000)
  /\ is_u64 (align (new_sieve 0 1000 1) 45).
Proof.
  apply (align_monotone_bounded (new_sieve 0 1000 1) 45 77); concrete.
Defined.

(** ** Chunk boundaries *)

Section ChunkExtras.

Variable ps : ParallelPrimeSieve.
Variable threadDistance : Z.
Hypothesis ps_range : in_range ps.
Hypothesis ps_nonempty : start_ ps < stop_ ps.
Hypothesis td_range : 0 < threadDistance <= UINT64_MAX.

Local Abbreviation distance := (stop_ ps - start_ ps).
Local Abbreviation iters := (iters_of ps threadDistance).
Local Abbreviation tentative j := (start_ ps + j * threadDistance).

Lemma iters_eq : iters = (distance - 1) / threadDistance + 1.
Proof. apply iters_of_nonempty; assumption. Qed.

(** X14: the index arithmetic of the worker loop never wraps: there are
    between 1 and distance chunks, iters = ceil(distance / threadDistance),
    and for every index i below iters the product i * threadDistance and
    the tentative start start + i * threadDistance are computed exactly in
    64 bits, the tentative start lying in [start, stop - 1]. *)
Theorem index_arithmetic_never_wraps i :
  0 <= i < iters ->
  1 <= iters <= distance
  /\ iters = ceil_div distance threadDistance
  /\ u64 (i * threadDistance) = i * threadDistance
  /\ u64 (start_ ps + u64 (i * threadDistance)) = tentative i
  /\ start_ ps <= tentative i <= stop_ ps - 1.
Proof.
  intros Hi. rewrite iters_eq in *.
  destruct (iters_of_nonempty ps threadDistance ps_range ps_nonempty td_range) as [_ Hr].
  pose proof (tentative_below_stop ps threadDistance td_range i Hi) as Ht.
  pose proof (tentative_u64 ps threadDistance ps_range ps_nonempty td_range i Hi) as Hu.
  destruct ps_range as [[? ?] [? ?]].
  assert (Hq : (distance - 1) / threadDistance <= distance - 1).
  { apply Z.div_le_upper_bound; [lia|]. nia. }
  split; [lia|]. split; [rewrite ceil_div_iters by lia; reflexivity|].
  split; [apply u64_small; nia|]. split; [exact Hu | exact Ht].
Qed.

(** X15: the bounds of chunk i: its stop lies between its tentative start
    and the global stop, the first chunk starts at start, the last chunk
    stops at stop, and every later chunk starts at the stop of the chunk
    before plus 1, that sum taken in 64 bits. *)
Theorem chunk_boundaries i :
  0 <= i < iters ->
  tentative i <= snd (chunk ps threadDistance i) <= stop_ ps
  /\ (i = 0 -> fst (chunk ps threadDistance i) = start_ ps)
  /\ (i = iters - 1 -> snd (chunk ps threadDistance i) = stop_ ps)
  /\ (i + 1 < iters ->
      fst (chunk ps threadDistance (i + 1))
      = u64 (snd (chunk ps threadDistance i) + 1)).
Proof.
  intros Hi. rewrite iters_eq in *.
  split; [apply chunk_stop_bounds; assumption|].
  split; [|split].
  - intros ->. rewrite chunk_start_eq by assumption. reflexivity.
  - intros ->. apply chunk_stop_last; assumption.
  - intros Hn. rewrite chunk_start_eq by (assumption || lia).
    destruct (Z.eqb_spec (i + 1) 0); [lia|].
    rewrite (chunk_stop_next ps threadDistance ps_range ps_nonempty td_range i)
      by lia.
    reflexivity.
Qed.

(** X16: the re-derived start of a chunk i >= 1 wraps to 0 exactly when
    stop is UINT64_MAX and the tentative start is within 32 of it; in every
    other case it lies above the tentative start and at most one above
    stop. *)
Theorem chunk_start_wraps_iff i :
  1 <= i < iters ->
  (fst (chunk ps threadDistance i) = 0
   <-> stop_ ps = UINT64_MAX /\ stop_ ps <= tentative i + 32)
  /\ (fst (chunk ps threadDistance i) <> 0 ->
      tentative i < fst (chunk ps threadDistance i) <= stop_ ps + 1).
Proof.
  intros Hi. rewrite iters_eq in *.
  pose proof (tentative_below_stop ps threadDistance td_range i ltac:(lia)) as Ht.
  rewrite chunk_start_eq by (assumption || lia).
  destruct (Z.eqb_spec i 0); [lia|].
  destruct ps_range as [[? ?] [? Hmax]].
  assert (Hu : is_u64 (tentative i)) by (unfold is_u64; lia).
  rewrite align_math by (assumption || split; assumption).
  pose proof (Z.mod_pos_bound (tentative i) 30 ltac:(lia)) as Hm.
  destruct (Z.geb_spec (tentative i + 32) (stop_ ps)) as [Hge|Hlt].
  - destruct (Z.eq_dec (stop_ ps) UINT64_MAX) as [He|Hne].
    + rewrite He. change (u64 (UINT64_MAX + 1)) with 0.
      split; [split; [intros _; split; [reflexivity|lia] | reflexivity]|].
      intros Hz. contradiction.
    + rewrite u64_small by lia. split; [|intros _; lia].
      split; [intros Hz; lia | intros [Hz _]; contradiction].
  - rewrite u64_small by lia. split; [|intros _; lia].
    split; [intros Hz; lia | intros [_ Hz]; lia].
Qed.

(** X17: when stop is below UINT64_MAX, the chunks of a run tile
    [start, stop] for every positive thread distance: every number of the
    range lies in exactly one chunk and no other number lies in any. *)
Theorem chunks_partition_below_max x :
  stop_ ps < UINT64_MAX ->
  tiles (start_ ps) (stop_ ps) (chunks ps threadDistance iters)
  /\ cover_count x (chunks ps threadDistance iters)
     = if (start_ ps <=? x) && (x <=? stop_ ps) then 1%nat else 0%nat.
Proof.
  intros Hs. split; [apply chunks_tile; assumption|].
  apply chunks_cover_exactly; assumption.
Qed.

End ChunkExtras.

Lemma index_arithmetic_never_wraps_witness :
  u64 (0 + u64 (3 * 90)) = 0 + 3 * 90.
Proof.
  exact (proj1 (proj2 (proj2 (proj2
           (index_arithmetic_never_wraps (new_sieve 0 300 4) 90
              ltac:(concrete) ltac:(concrete) ltac:(concrete) 3
              ltac:(vm_compute; split; [discriminate | reflexivity])))))).
Defined.

Lemma chunk_boundaries_witness :
  0 + 1 * 90 <= snd (chunk (new_sieve 0 300 4) 90 1) <= 300.
Proof.
  exact (proj1 (chunk_boundaries (new_sieve 0 300 4) 90
                  ltac:(concrete) ltac:(concrete) ltac:(concrete) 1
                  ltac:(vm_compute; split; [discriminate | reflexivity]))).
Defined.

Lemma chunk_start_wraps_iff_witness :
  fst (chunk range_to_max 20000000010 20) = 0
  <-> stop_ range_to_max = UINT64_MAX
      /\ stop_ range_to_max <= start_ range_to_max + 20 * 20000000010 + 32.
Proof.
  exact (proj1 (chunk_start_wraps_iff range_to_max 20000000010
                  ltac:(concrete) ltac:(concrete) ltac:(concrete) 20
                  ltac:(vm_compute; split; [discriminate | reflexivity]))).
Defined.

Lemma chunks_partition_below_max_witness :
  cover_count 120 (chunks (new_sieve 0 300 4) 90 (iters_of (new_sieve 0 300 4) 90))
  = if (0 <=? 120) && (120 <=? 300) then 1%nat else 0%nat.
Proof.
  exact (proj2 (chunks_partition_below_max (new_sieve 0 300 4) 90
                  ltac:(concrete) ltac:(concrete) ltac:(concrete) 120
                  ltac:(concrete))).
Defined.

(** ** Runs compared *)

Section RunExtras.

Variable MIN_THREAD_DISTANCE : Z.
Variable MAX_THREAD_DISTANCE : Z.
Hypothesis MIN_pos : 0 < MIN_THREAD_DISTANCE.
Hypothesis MIN_le_MAX : MIN_THREAD_DISTANCE <= MAX_THREAD_DISTANCE.
Hypothesis MAX_fits : 5 * MAX_THREAD_DISTANCE + 30 <= UINT64_MAX.

Variable engine : Z -> Z -> Counters.
Hypothesis engine_wf : forall a b, wf_counts (engine a b).

Local Abbreviation run ps sched elapsed :=
  (sieve MIN_THREAD_DISTANCE MAX_THREAD_DISTANCE engine ps sched elapsed).

Lemma plan_depends_on_range a b :
  (start_ b, stop_ b, numThreads_ b) = (start_ a, stop_ a, numThreads_ a) ->
  idealNumThreads MIN_THREAD_DISTANCE b = idealNumThreads MIN_THREAD_DISTANCE a
  /\ (forall t, getThreadDistance MIN_THREAD_DISTANCE MAX_THREAD_DISTANCE b t
                = getThreadDistance MIN_THREAD_DISTANCE MAX_THREAD_DISTANCE a t)
  /\ (forall td, iters_of b td = iters_of a td)
  /\ (forall td n, chunks b td n = chunks a td n).
Proof.
  intros Heq. injection Heq as Hs He Hn.
  split; [|split; [|split]].
  - unfold idealNumThreads, threshold_of, getDistance. rewrite Hs, He, Hn. reflexivity.
  - intros t. unfold getThreadDistance, getDistance. rewrite Hs, He. reflexivity.
  - intros td. unfold iters_of, getDistance. rewrite Hs, He. reflexivity.
  - intros td n. unfold chunks. apply map_ext. intros j.
    unfold chunk, align. rewrite Hs, He. reflexivity.
Qed.

(** X18: the Counters after sieve() depend on the range and on the
    configured thread count only: not on the Counters, the seconds, the
    progress or the sink the object held before, so that runs do not
    accumulate, and not on the schedule of the threads or on the time
    measured. *)
Theorem sieve_counts_depend_on_range_only ps1 ps2 sched1 sched2 elapsed1 elapsed2 :
  in_range ps1 -> 1 <= numThreads_ ps1 <= INT_MAX ->
  (start_ ps2, stop_ ps2, numThreads_ ps2) = (start_ ps1, stop_ ps1, numThreads_ ps1) ->
  counts_ (object (run ps1 sched1 elapsed1)) = counts_ (object (run ps2 sched2 elapsed2)).
Proof.
  intros Hr Hn Heq.
  destruct (plan_depends_on_range ps1 ps2 Heq) as (Hk & Htd & Hit & Hch).
  injection Heq as Hs He _.
  destruct (Z.le_gt_cases (start_ ps1) (stop_ ps1)) as [Hle|Hgt].
  - assert (Hle' : start_ ps2 <= stop_ ps2) by lia.
    destruct (Z.eq_dec (idealNumThreads MIN_THREAD_DISTANCE ps1) 1) as [H1|H1].
    + rewrite (sieve_single_counts _ _ engine ps1 Hle sched1 elapsed1 H1).
      rewrite (sieve_single_counts _ _ engine ps2 Hle' sched2 elapsed2
                 ltac:(rewrite Hk; exact H1)).
      rewrite Hs, He. reflexivity.
    + destruct (iters_of_ceil MIN_THREAD_DISTANCE MAX_THREAD_DISTANCE MIN_pos
                  MIN_le_MAX MAX_fits ps1 Hr Hle Hn H1) as [_ Hi1].
      rewrite (sieve_multi_counts _ _ engine engine_wf ps1 Hle sched1 elapsed1 H1 Hi1).
      rewrite (sieve_multi_counts _ _ engine engine_wf ps2 Hle' sched2 elapsed2
                 ltac:(rewrite Hk; exact H1)
                 ltac:(rewrite Hk, Htd, Hit; exact Hi1)).
      rewrite Hk, Htd, Hit, Hch. reflexivity.
  - rewrite (sieve_empty_range _ _ engine ps1 sched1 elapsed1 ltac:(lia)).
    rewrite (sieve_empty_range _ _ engine ps2 sched2 elapsed2 ltac:(lia)).
    reflexivity.
Qed.

Hypothesis engine_empty :
  forall a b, is_u64 a -> is_u64 b -> b < a -> engine a b = zero_counts.
Hypothesis engine_split :
  forall a m b, 0 <= a <= m -> m < b <= UINT64_MAX -> m mod 30 = 2 ->
  engine a b = vadd (engine a m) (engine (m + 1) b).

(** X19: for a range with start <= stop < UINT64_MAX and an engine that is
    additive across cuts behind numbers that are 2 modulo 30, a run with any
    configured thread count and any schedule yields the Counters of the run
    of the same object configured for one thread, which are the engine's
    over [start, stop]. *)
Theorem parallel_refines_sequential ps sched sched1 elapsed elapsed1 :
  in_range ps -> start_ ps <= stop_ ps -> stop_ ps < UINT64_MAX ->
  1 <= numThreads_ ps <= INT_MAX ->
  counts_ (object (run ps sched elapsed))
  = counts_ (object (run (set_numThreads ps 1) sched1 elapsed1))
  /\ counts_ (object (run ps sched elapsed)) = engine (start_ ps) (stop_ ps)
  /\ spawned (run (set_numThreads ps 1) sched1 elapsed1) = 0.
Proof.
  intros Hr Hle Hs Hn.
  assert (H1 : counts_ (object (run ps sched elapsed)) = engine (start_ ps) (stop_ ps)).
  { apply sieve_counts_any_schedule; assumption. }
  assert (H2 : counts_ (object (run (set_numThreads ps 1) sched1 elapsed1))
               = engine (start_ ps) (stop_ ps)).
  { apply (sieve_counts_any_schedule engine engine_wf engine_empty engine_split
             MIN_THREAD_DISTANCE MAX_THREAD_DISTANCE MIN_pos MIN_le_MAX MAX_fits
             (set_numThreads ps 1)); try assumption.
    cbn [numThreads_ set_numThreads]. unfold INT_MAX. lia. }
  split; [rewrite H1, H2; reflexivity|]. split; [exact H1|].
  assert (Hk : idealNumThreads MIN_THREAD_DISTANCE (set_numThreads ps 1) = 1).
  { pose proof (idealNumThreads_range MIN_THREAD_DISTANCE (set_numThreads ps 1)) as Hi.
    cbn [numThreads_ set_numThreads] in Hi. unfold INT_MAX in Hi. lia. }
  rewrite sieve_single_thread by assumption. reflexivity.
Qed.

End RunExtras.

Lemma sieve_counts_depend_on_range_only_witness :
  counts_ (object (sieve 30 60 prime_engine (new_sieve 0 300 4) [1; 0]%nat 0%Q))
  = counts_ (object (sieve 30 60 prime_engine
                       (mkPPS 0 300 4 [25; 8; 0; 0; 0; 0] 1%Q 7 1%Q Unlocked
                              (Some (mkShm [25; 8; 0; 0; 0; 0] 0%Q 1%Q)))
                       [3; 2; 2; 0]%nat 5%Q)).
Proof.
  apply (sieve_counts_depend_on_range_only 30 60 ltac:(lia) ltac:(lia) ltac:(concrete)
           prime_engine prime_engine_wf);
    [concrete | concrete | reflexivity].
Defined.

Lemma parallel_refines_sequential_witness :
  counts_ (object (sieve 30 60 prime_engine (new_sieve 0 300 4) [1; 0]%nat 0%Q))
  = prime_engine 0 300.
Proof.
  exact (proj1 (proj2
    (parallel_refines_sequential 30 60 ltac:(lia) ltac:(lia) ltac:(concrete)
       prime_engine prime_engine_wf
       (fun a b _ _ H => prime_engine_empty a b H)
       (fun a m b Ha Hm _ => prime_engine_split a m b ltac:(lia))
       (new_sieve 0 300 4) [1; 0]%nat [] 0%Q 0%Q
       ltac:(concrete) ltac:(concrete) ltac:(concrete) ltac:(concrete)))).
Defined.

(** ** From the shared memory to a run and back *)

(** X20: init takes the range and a clamped thread count from the shared
    memory and binds it as the sink, so that a following sieve() on a range
    with start <= stop leaves the final counts and the elapsed seconds in
    that memory; on a range with start > stop the memory is left as init
    found it. *)
Theorem init_then_sieve hw MIN MAX engine ps req shm sched elapsed :
  let ps' := init hw ps req shm in
  let after := object (sieve MIN MAX engine ps' sched elapsed) in
  (start_ ps', stop_ ps') = (req_start req, req_stop req)
  /\ getNumThreads ps' = getNumThreads (setNumThreads hw ps (req_threads req))
  /\ shm_ ps' = Some shm
  /\ (req_start req <= req_stop req ->
      exists sink, shm_ after = Some sink
        /\ shm_counts sink = counts_ after
        /\ shm_seconds sink = elapsed)
  /\ (req_start req > req_stop req -> shm_ after = Some shm).
Proof.
  intros ps' after.
  assert (Hshm : shm_ ps' = Some shm) by reflexivity.
  split; [reflexivity|]. split; [reflexivity|]. split; [reflexivity|]. split.
  - intros Hle. assert (Hle' : start_ ps' <= stop_ ps') by exact Hle.
    subst after.
    destruct (Z.eq_dec (idealNumThreads MIN ps') 1) as [Hk|Hk].
    + rewrite sieve_single_thread by assumption. cbn [object].
      destruct (publish_sink (PrimeSieve_sieve engine (reset ps') elapsed) shm Hshm)
        as (H1 & H2 & H3).
      rewrite H1, H2. eexists. split; [reflexivity|]. split; reflexivity.
    + rewrite sieve_multi_thread by assumption. cbv zeta. cbn [object].
      match goal with |- context [publish ?x] =>
        destruct (publish_sink x shm Hshm) as (H1 & H2 & H3) end.
      rewrite H1, H2. eexists. split; [reflexivity|]. split; reflexivity.
  - intros Hgt. assert (Hgt' : start_ ps' > stop_ ps') by exact Hgt.
    subst after. rewrite sieve_empty_range by assumption. reflexivity.
Qed.
